(** * contiguous_ds: a deferred-write sorted set

    Shallow embedding of [src/main.cpp] (class [contiguous_set<T, BufferSize>])
    and the properties of its reconciliation pass [make_ready].

    Conventions of the embedding.
    - The element type [T] is instantiated as in [main]: [int], modelled by [Z].
      Elements are only ever compared ([<], [==], [>]), never computed with.
    - Array indices, counters and sizes are natural numbers; the development
      covers stores and logs whose sizes fit the C++ [int] the source uses for
      them, so index arithmetic is exact.
    - [op_buffer] is the fixed array of [BufferSize] cells together with the
      counter [buffer_ops], exactly as in the class; cells are written with
      list update and read with total lookup.
    - The scratch array [optimised_op_buffer] is only ever appended to at
      [write_command_pos] and read below it, so it is modelled by the list of
      its first [write_command_pos] cells.
    - Iterators are positions (indices) in [items]; [end()] is [items.size()].
      In [find], [iterator(items.begin() + med)] is the position [med] and
      [return end();] the end marker.
      As written, neither statement compiles when [find] is instantiated
      ([iterator] is not declared, and [end] names the local variable); what
      is proved about [find] is only whether its loop reaches one of them.
    - [equal_range] is declared to return one iterator and returns the pair
      of [std::equal_range]; the pair is what is modelled.
    - [count], [swap] and [max_size] play no part in what is proved here and
      are left out.
    - Calls into the C++ standard library are modelled in [Module Std] by
      their contracts. *)

From stdpp Require Import base numbers list sorting.

Local Open Scope nat_scope.

(** ** Enumerations and log entries *)

Inductive ContainerState : Set :=
  | Ready
  | Modified.

Inductive BufferOperation : Set :=
  | InsertItem
  | DeleteItem.

Global Instance BufferOperation_eq_dec : EqDecision BufferOperation.
Proof. solve_decision. Defined.

(** Enumerator values: [InsertItem = 0], [DeleteItem = 1]. *)
Definition BufferOperation_rank (o : BufferOperation) : nat :=
  match o with
  | InsertItem => 0
  | DeleteItem => 1
  end.

Record BufferItem : Set := mkBufferItem {
  operation : BufferOperation;
  value : Z
}.

Global Instance BufferItem_eq_dec : EqDecision BufferItem.
Proof. solve_decision. Defined.

Global Instance BufferItem_inhabited : Inhabited BufferItem :=
  populate (mkBufferItem InsertItem 0).

(** [BufferItem::operator<] *)
Definition BufferItem_lt (a b : BufferItem) : bool :=
  if bool_decide (operation a = operation b)
  then (value a <? value b)%Z
  else BufferOperation_rank (operation a) <? BufferOperation_rank (operation b).

(** ** The standard-library calls the class makes *)

Module Std.

(** [std::lower_bound] on a range partitioned by [< val]: the index of the
    first element that is not less than [val]. *)
Fixpoint lower_bound (v : list Z) (val : Z) : nat :=
  match v with
  | [] => 0
  | x :: v' => if (x <? val)%Z then S (lower_bound v' val) else 0
  end.

(** [std::upper_bound]: the index of the first element greater than [val]. *)
Fixpoint upper_bound (v : list Z) (val : Z) : nat :=
  match v with
  | [] => 0
  | x :: v' => if (val <? x)%Z then 0 else S (upper_bound v' val)
  end.

(** [std::equal_range]: the pair of both bounds. *)
Definition equal_range (v : list Z) (val : Z) : nat * nat :=
  (lower_bound v val, upper_bound v val).

(** [std::binary_search]: [i = lower_bound(..); i != last && !(val < *i)]. *)
Definition binary_search (v : list Z) (val : Z) : bool :=
  match v !! lower_bound v val with
  | Some x => negb (val <? x)%Z
  | None => false
  end.

(** [std::vector<int>::resize]: truncate, or pad with value-initialised
    elements. *)
Definition resize (v : list Z) (n : nat) : list Z :=
  take n v ++ replicate (n - length v) 0%Z.

(** Merge of two ascending runs, taking from the first run on ties. *)
Fixpoint merge_runs (l1 : list Z) : list Z → list Z :=
  fix go (l2 : list Z) : list Z :=
    match l1, l2 with
    | [], _ => l2
    | _, [] => l1
    | x :: l1', y :: l2' =>
        if (y <? x)%Z then y :: go l2' else x :: merge_runs l1' l2
    end.

(** [std::inplace_merge(first, first + middle, last)] *)
Definition inplace_merge (v : list Z) (middle : nat) : list Z :=
  merge_runs (take middle v) (drop middle v).

(** [std::sort] with a comparator: an ascending rearrangement.  For the
    total order [BufferItem_lt] on log entries the result is unique, so any
    sorting function models it; this one inserts one element at a time. *)
Fixpoint sorted_insert {A} (lt : A → A → bool) (x : A) (l : list A) : list A :=
  match l with
  | [] => [x]
  | y :: l' => if lt x y then x :: l else y :: sorted_insert lt x l'
  end.

Definition sort {A} (lt : A → A → bool) (l : list A) : list A :=
  foldr (sorted_insert lt) [] l.

(** [std::copy(src.begin(), src.end(), dst.begin() + pos)]: element by
    element; storing through an iterator outside [dst]'s range has no
    defined result. *)
Fixpoint copy (src : list Z) (dst : list Z) (pos : nat) : option (list Z) :=
  match src with
  | [] => Some dst
  | x :: src' =>
      if pos <? length dst then copy src' (<[pos:=x]> dst) (S pos) else None
  end.

End Std.

(** ** The container

    The members keep their names; [insert], [size] and [empty] below are the
    class's, not the list operations of the same names. *)

Record contiguous_set : Set := mk_contiguous_set {
  op_buffer : list BufferItem;
  buffer_ops : nat;
  state : ContainerState;
  items : list Z
}.

(** Look-ahead loop of the [InsertItem] branch:
    [for(int j = i + 1; j < buffer_ops; ++j)], entered with [todo] iterations
    left. *)
Fixpoint look_ahead_add (todo j : nat) (op_buffer : list BufferItem) (i : nat)
    (eventual_add : bool) (handled : list bool) : bool * list bool :=
  match todo with
  | 0 => (eventual_add, handled)
  | S todo' =>
      if (value (op_buffer !!! i) =? value (op_buffer !!! j))%Z then
        match operation (op_buffer !!! j) with
        | InsertItem =>
            look_ahead_add todo' (S j) op_buffer i true (<[j:=true]> handled)
        | DeleteItem =>
            look_ahead_add todo' (S j) op_buffer i false (<[j:=true]> handled)
        end
      else look_ahead_add todo' (S j) op_buffer i eventual_add handled
  end.

(** Look-ahead loop of the [DeleteItem] branch. *)
Fixpoint look_ahead_delete (todo j : nat) (op_buffer : list BufferItem) (i : nat)
    (eventual_delete : bool) (handled : list bool) : bool * list bool :=
  match todo with
  | 0 => (eventual_delete, handled)
  | S todo' =>
      if (value (op_buffer !!! i) =? value (op_buffer !!! j))%Z then
        match operation (op_buffer !!! j) with
        | InsertItem =>
            look_ahead_delete todo' (S j) op_buffer i false (<[j:=true]> handled)
        | DeleteItem =>
            look_ahead_delete todo' (S j) op_buffer i true (<[j:=true]> handled)
        end
      else look_ahead_delete todo' (S j) op_buffer i eventual_delete handled
  end.

(** Outer loop [for(int i = 0; i < buffer_ops; ++i)]; [optimised] holds
    [optimised_op_buffer[0 .. write_command_pos)]. *)
Fixpoint resolve_ops (todo i : nat) (op_buffer : list BufferItem)
    (buffer_ops : nat) (items : list Z) (handled : list bool)
    (optimised : list BufferItem) : list BufferItem :=
  match todo with
  | 0 => optimised
  | S todo' =>
      if (handled !!! i : bool)
      then resolve_ops todo' (S i) op_buffer buffer_ops items handled optimised
      else
        let handled := <[i:=true]> handled in
        match operation (op_buffer !!! i) with
        | InsertItem =>
            let '(eventual_add, handled) :=
              look_ahead_add (buffer_ops - S i) (S i) op_buffer i true handled in
            let optimised :=
              if eventual_add
                 && negb (Std.binary_search items (value (op_buffer !!! i)))
              then optimised ++ [op_buffer !!! i]
              else optimised in
            resolve_ops todo' (S i) op_buffer buffer_ops items handled optimised
        | DeleteItem =>
            let '(eventual_delete, handled) :=
              look_ahead_delete (buffer_ops - S i) (S i) op_buffer i true handled in
            let optimised :=
              if eventual_delete
                 && Std.binary_search items (value (op_buffer !!! i))
              then optimised ++ [op_buffer !!! i]
              else optimised in
            resolve_ops todo' (S i) op_buffer buffer_ops items handled optimised
        end
  end.

(** [for(; inserts < write_command_pos; ++inserts)
       if(optimised_op_buffer[inserts].operation == DeleteItem) break;] *)
Fixpoint count_inserts (todo inserts : nat) (optimised : list BufferItem) : nat :=
  match todo with
  | 0 => inserts
  | S todo' =>
      match operation (optimised !!! inserts) with
      | DeleteItem => inserts
      | InsertItem => count_inserts todo' (S inserts) optimised
      end
  end.

(** [for(int i = 0; i < inserts; ++i)
       items[old_size + i] = optimised_op_buffer[i].value;] *)
Fixpoint store_inserts (todo i : nat) (old_size : nat)
    (optimised : list BufferItem) (items : list Z) : list Z :=
  match todo with
  | 0 => items
  | S todo' =>
      store_inserts todo' (S i) old_size optimised
        (<[old_size + i := value (optimised !!! i)]> items)
  end.

(** The delete loop [for(int i = 0; i < int(items.size()); ++i)], compacting
    [items] in place; returns the array and [write_item_pos]. *)
Fixpoint delete_pass (todo i : nat) (optimised : list BufferItem)
    (write_command_pos : nat) (items : list Z)
    (write_item_pos delete_pos : nat) : list Z * nat :=
  match todo with
  | 0 => (items, write_item_pos)
  | S todo' =>
      if (delete_pos <? write_command_pos)
         && (items !!! i =? value (optimised !!! delete_pos))%Z
      then delete_pass todo' (S i) optimised write_command_pos items
             write_item_pos (S delete_pos)
      else delete_pass todo' (S i) optimised write_command_pos
             (<[write_item_pos := items !!! i]> items)
             (S write_item_pos) delete_pos
  end.

Section contiguous_set.

(** The template parameter [int BufferSize = 64]. *)
Variable BufferSize : nat.

(** [contiguous_set()]: [buffer_ops(0), state(Ready)], an empty vector, and
    [BufferSize] log cells that [BufferItem()] leaves unset; [unset k] is
    whatever cell [k] happens to hold. *)
Definition new_set (unset : nat → BufferItem) : contiguous_set :=
  {| op_buffer := unset <$> seq 0 BufferSize;
     buffer_ops := 0;
     state := Ready;
     items := [] |}.

Definition make_ready (s : contiguous_set) : contiguous_set :=
  if buffer_ops s =? 0 then
    {| op_buffer := op_buffer s; buffer_ops := buffer_ops s;
       state := Ready; items := items s |}
  else
    let handled := replicate BufferSize false in
    let optimised :=
      resolve_ops (buffer_ops s) 0 (op_buffer s) (buffer_ops s) (items s)
        handled [] in
    let write_command_pos := length optimised in
    let optimised := Std.sort BufferItem_lt optimised in
    let inserts := count_inserts write_command_pos 0 optimised in
    let old_size := length (items s) in
    let items1 := Std.resize (items s) (old_size + inserts) in
    let items2 := store_inserts inserts 0 old_size optimised items1 in
    let items3 := Std.inplace_merge items2 (length items2 - inserts) in
    let '(items4, write_item_pos) :=
      delete_pass (length items3) 0 optimised write_command_pos items3
        0 inserts in
    {| op_buffer := op_buffer s; buffer_ops := 0;
       state := Ready; items := Std.resize items4 write_item_pos |}.

(** The scratch buffer [optimised_op_buffer[0 .. write_command_pos)] as the
    scan loop of [make_ready] leaves it, before it is sorted. *)
Definition net_operations (s : contiguous_set) : list BufferItem :=
  resolve_ops (buffer_ops s) 0 (op_buffer s) (buffer_ops s) (items s)
    (replicate BufferSize false) [].

(** [begin()] and [end()], as positions in [items]. *)
Definition begin_ (s : contiguous_set) : nat * contiguous_set :=
  let s := make_ready s in (0, s).

Definition end_ (s : contiguous_set) : nat * contiguous_set :=
  let s := make_ready s in (length (items s), s).

Definition empty (s : contiguous_set) : bool * contiguous_set :=
  let s := make_ready s in (bool_decide (items s = []), s).

Definition size (s : contiguous_set) : nat * contiguous_set :=
  let s := make_ready s in (length (items s), s).

Definition insert (val : Z) (s : contiguous_set) : contiguous_set :=
  let s := if buffer_ops s =? BufferSize then make_ready s else s in
  {| op_buffer := <[buffer_ops s := mkBufferItem InsertItem val]> (op_buffer s);
     buffer_ops := S (buffer_ops s);
     state := state s; items := items s |}.

(** [insert(first, last)] over the values [first .. last) yields. *)
Definition insert_range (vals : list Z) (s : contiguous_set) : contiguous_set :=
  foldl (λ s val, insert val s) s vals.

Definition erase (val : Z) (s : contiguous_set) : contiguous_set :=
  let s := if buffer_ops s =? BufferSize then make_ready s else s in
  {| op_buffer := <[buffer_ops s := mkBufferItem DeleteItem val]> (op_buffer s);
     buffer_ops := S (buffer_ops s);
     state := state s; items := items s |}.

Definition clear (s : contiguous_set) : contiguous_set :=
  {| op_buffer := op_buffer s; buffer_ops := 0;
     state := state s; items := [] |}.

(** The [while(beg < end)] loop of [find]; [None] when [fuel] iterations
    did not reach a [return].  [Some med] stands for the [return] inside
    the loop, [Some (length items)] for the [return end();] after it. *)
Fixpoint find_loop (fuel : nat) (items : list Z) (val : Z) (beg end' : nat)
    : option nat :=
  match fuel with
  | 0 => None
  | S fuel' =>
      if beg <? end' then
        let med := beg + (end' - beg) / 2 in
        if (items !!! med =? val)%Z then Some med
        else if (items !!! med >? val)%Z then find_loop fuel' items val beg med
        else find_loop fuel' items val med end'
      else Some (length items)
  end.

Definition find (fuel : nat) (val : Z) (s : contiguous_set)
    : option nat * contiguous_set :=
  let s := make_ready s in
  let '(end', s) := size s in
  (find_loop fuel (items s) val 0 end', s).

Definition lower_bound (val : Z) (s : contiguous_set) : nat :=
  Std.lower_bound (items s) val.

Definition upper_bound (val : Z) (s : contiguous_set) : nat :=
  Std.upper_bound (items s) val.

Definition equal_range (val : Z) (s : contiguous_set) : nat * nat :=
  Std.equal_range (items s) val.

(** [contiguous_set(contiguous_set<T>& other)].  The constructor has no
    member initialisers: [items] is default-constructed (empty), while
    [op_buffer], [buffer_ops] and [state] keep whatever the object's storage
    [raw] held ([raw]'s [items] plays no part).  A counter is a natural
    number here, so [raw] ranges over the storages whose [buffer_ops] is not
    negative.  Returns the new object and the reconciled [other]; [None]
    when [std::copy] stores outside the new vector. *)
Definition copy_construct (raw other : contiguous_set)
    : option (contiguous_set * contiguous_set) :=
  let other := make_ready other in
  let items0 : list Z := [] in
  let items1 := Std.resize items0 (length items0) in
  match Std.copy (items other) items1 0 with
  | Some items2 =>
      Some ({| op_buffer := op_buffer raw; buffer_ops := buffer_ops raw;
               state := state raw; items := items2 |}, other)
  | None => None
  end.

End contiguous_set.

(** ** Call sequences and observation *)

Inductive call : Set :=
  | CallInsert (val : Z)
  | CallErase (val : Z)
  | CallBegin.

Definition apply_call (BufferSize : nat) (s : contiguous_set) (c : call)
    : contiguous_set :=
  match c with
  | CallInsert val => insert BufferSize val s
  | CallErase val => erase BufferSize val s
  | CallBegin => snd (begin_ BufferSize s)
  end.

Definition run (BufferSize : nat) (calls : list call) (s : contiguous_set)
    : contiguous_set :=
  foldl (apply_call BufferSize) s calls.

(** What iterating from [begin()] to [end()] yields. *)
Definition contents (BufferSize : nat) (s : contiguous_set) : list Z :=
  items (snd (begin_ BufferSize s)).

(** The pending entries [op_buffer[0 .. buffer_ops)]. *)
Definition log (s : contiguous_set) : list BufferItem :=
  take (buffer_ops s) (op_buffer s).

(** Class invariant established by [contiguous_set()]. *)
Definition wf (BufferSize : nat) (s : contiguous_set) : Prop :=
  length (op_buffer s) = BufferSize ∧ buffer_ops s ≤ BufferSize.

Definition strictly_increasing (l : list Z) : Prop := StronglySorted Z.lt l.

(** ** A reference ordered set

    The model the specification compares against: an ascending,
    duplicate-free list to which every call is applied at once. *)

Fixpoint ref_insert (val : Z) (l : list Z) : list Z :=
  match l with
  | [] => [val]
  | x :: l' =>
      if (val <? x)%Z then val :: l
      else if (val =? x)%Z then l
      else x :: ref_insert val l'
  end.

Fixpoint ref_erase (val : Z) (l : list Z) : list Z :=
  match l with
  | [] => []
  | x :: l' => if (val =? x)%Z then ref_erase val l' else x :: ref_erase val l'
  end.

Definition ref_apply (l : list Z) (c : call) : list Z :=
  match c with
  | CallInsert val => ref_insert val l
  | CallErase val => ref_erase val l
  | CallBegin => l
  end.

Definition ref_run (calls : list call) : list Z := foldl ref_apply [] calls.

(** ** The reconciliation pass as functions on lists

    What the loops of [make_ready] compute, stated on the log as a list;
    the equivalence with the loops is proved below. *)

(** Outcome of the look-ahead for an entry of kind [kind] on value [val]:
    every later entry on [val] overrides it. *)
Fixpoint look_ahead (kind : BufferOperation) (val : Z)
    (later : list BufferItem) (eventual : bool) : bool :=
  match later with
  | [] => eventual
  | y :: later' =>
      if (val =? value y)%Z
      then look_ahead kind val later' (bool_decide (operation y = kind))
      else look_ahead kind val later' eventual
  end.

(** The cells the look-ahead marks as handled, [j] being the index of the
    first entry of [later]. *)
Fixpoint mark_same (val : Z) (later : list BufferItem) (j : nat)
    (handled : list bool) : list bool :=
  match later with
  | [] => handled
  | y :: later' =>
      mark_same val later' (S j)
        (if (val =? value y)%Z then <[j:=true]> handled else handled)
  end.

(** Whether the entry [x], after its look-ahead gave [eventual], is written
    to the scratch buffer. *)
Definition emitted (items : list Z) (x : BufferItem) (eventual : bool) : bool :=
  match operation x with
  | InsertItem => eventual && negb (Std.binary_search items (value x))
  | DeleteItem => eventual && Std.binary_search items (value x)
  end.

(** The net operations, [seen] being the values already handled. *)
Fixpoint net_ops (items : list Z) (seen : list Z) (l : list BufferItem)
    : list BufferItem :=
  match l with
  | [] => []
  | x :: rest =>
      if decide (value x ∈ seen) then net_ops items seen rest
      else
        (if emitted items x (look_ahead (operation x) (value x) rest true)
         then [x] else [])
        ++ net_ops items (value x :: seen) rest
  end.

(** The leading [InsertItem] entries of the sorted scratch buffer. *)
Fixpoint leading_inserts (l : list BufferItem) : list BufferItem :=
  match l with
  | [] => []
  | x :: l' =>
      match operation x with
      | InsertItem => x :: leading_inserts l'
      | DeleteItem => []
      end
  end.

(** Two-cursor removal of the targets [dels] from [l]. *)
Fixpoint subtract (l : list Z) (dels : list Z) : list Z :=
  match l with
  | [] => []
  | x :: l' =>
      match dels with
      | d :: dels' =>
          if (x =? d)%Z then subtract l' dels' else x :: subtract l' dels
      | [] => x :: subtract l' dels
      end
  end.

Definition reconcile (items : list Z) (l : list BufferItem) : list Z :=
  let optimised := Std.sort BufferItem_lt (net_ops items [] l) in
  let inserts := length (leading_inserts optimised) in
  subtract
    (Std.merge_runs items (value <$> take inserts optimised))
    (value <$> drop inserts optimised).

(** Kinds of the entries of [l] on [val], in log order. *)
Definition kinds_on (val : Z) (l : list BufferItem) : list BufferOperation :=
  operation <$> filter (λ x, value x = val) l.

(** The reference set after one log entry. *)
Definition ref_apply_entry (l : list Z) (b : BufferItem) : list Z :=
  match operation b with
  | InsertItem => ref_insert (value b) l
  | DeleteItem => ref_erase (value b) l
  end.

Definition inserted (calls : list call) : list Z :=
  omap (λ c, match c with CallInsert val => Some val | _ => None end) calls.

Definition erased (calls : list call) : list Z :=
  omap (λ c, match c with CallErase val => Some val | _ => None end) calls.

(** No value is both inserted and erased by [calls]. *)
Definition unmixed (calls : list call) : Prop :=
  Forall (λ val, val ∉ erased calls) (inserted calls).

(** The log entry a call records. *)
Definition call_entry (c : call) : option BufferItem :=
  match c with
  | CallInsert val => Some (mkBufferItem InsertItem val)
  | CallErase val => Some (mkBufferItem DeleteItem val)
  | CallBegin => None
  end.

(** [c] records an operation on a value other than [val]. *)
Definition writes_other (val : Z) (c : call) : Prop :=
  match c with
  | CallInsert w | CallErase w => w ≠ val
  | CallBegin => False
  end.

(** [main]: inserts [0 .. 19] into a [contiguous_set<int>] and prints what
    iteration yields. *)
Definition main (unset : nat → BufferItem) : list Z :=
  let s := new_set 64 unset in
  let s := foldl (λ s i, insert 64 (Z.of_nat i) s) s (seq 0 20) in
  contents 64 s.

(** ** Sample states used to instantiate the theorems *)

Definition batch_example : contiguous_set :=
  {| op_buffer := [mkBufferItem InsertItem 3; mkBufferItem DeleteItem 1;
                   mkBufferItem InsertItem 3; mkBufferItem DeleteItem 9];
     buffer_ops := 4; state := Modified; items := [1; 2]%Z |}.

Definition ready_example : contiguous_set :=
  {| op_buffer := replicate 4 inhabitant; buffer_ops := 0; state := Ready;
     items := [1; 2]%Z |}.

Definition conflict_example : contiguous_set :=
  {| op_buffer := [mkBufferItem InsertItem 2; mkBufferItem InsertItem 7;
                   mkBufferItem DeleteItem 2; mkBufferItem DeleteItem 4];
     buffer_ops := 3; state := Modified; items := [1; 2]%Z |}.

Definition raw_overfull (BufferSize : nat) : contiguous_set :=
  {| op_buffer := replicate BufferSize inhabitant;
     buffer_ops := S BufferSize; state := Modified; items := [] |}.

Definition raw_one_pending : contiguous_set :=
  {| op_buffer := <[0 := mkBufferItem InsertItem 7]> (replicate 64 inhabitant);
     buffer_ops := 1; state := Modified; items := [] |}.

(** [ready_example] with stale cells above [buffer_ops] and the flag
    [Modified]. *)
Definition stale_example : contiguous_set :=
  {| op_buffer := [mkBufferItem InsertItem 3; mkBufferItem DeleteItem 1;
                   mkBufferItem InsertItem 3; mkBufferItem DeleteItem 9];
     buffer_ops := 0; state := Modified; items := [1; 2]%Z |}.

(** * Proofs *)

(** ** The loops of the scan compute the list functions

    Each loop of [make_ready] is related to the list function it computes,
    with the loop counter as induction variable; [make_ready_items] puts the
    steps together. *)

Section loops.
Context (buf : list BufferItem) (n : nat).
Hypothesis Hn : n ≤ length buf.

Lemma drop_take_cons j :
  j < n → drop j (take n buf) = buf !!! j :: drop (S j) (take n buf).
Proof.
  intros Hj. apply drop_S. rewrite lookup_take_lt by done.
  apply list_lookup_lookup_total_lt. lia.
Qed.

Lemma drop_take_nil j : n ≤ j → drop j (take n buf) = [].
Proof. intros Hj. apply drop_ge. rewrite length_take. lia. Qed.

Lemma look_ahead_add_spec i todo : ∀ j eventual handled,
  j + todo = n →
  look_ahead_add todo j buf i eventual handled =
    (look_ahead InsertItem (value (buf !!! i)) (drop j (take n buf)) eventual,
     mark_same (value (buf !!! i)) (drop j (take n buf)) j handled).
Proof.
  induction todo as [|todo IH]; intros j eventual handled Hj.
  - rewrite drop_take_nil by lia. done.
  - rewrite drop_take_cons by lia. cbn [look_ahead_add look_ahead mark_same].
    destruct (value (buf !!! i) =? value (buf !!! j))%Z.
    + destruct (operation (buf !!! j)); rewrite IH by lia; done.
    + rewrite IH by lia; done.
Qed.

Lemma look_ahead_delete_spec i todo : ∀ j eventual handled,
  j + todo = n →
  look_ahead_delete todo j buf i eventual handled =
    (look_ahead DeleteItem (value (buf !!! i)) (drop j (take n buf)) eventual,
     mark_same (value (buf !!! i)) (drop j (take n buf)) j handled).
Proof.
  induction todo as [|todo IH]; intros j eventual handled Hj.
  - rewrite drop_take_nil by lia. done.
  - rewrite drop_take_cons by lia. cbn [look_ahead_delete look_ahead mark_same].
    destruct (value (buf !!! i) =? value (buf !!! j))%Z.
    + destruct (operation (buf !!! j)); rewrite IH by lia; done.
    + rewrite IH by lia; done.
Qed.

Lemma length_mark_same val later : ∀ j handled,
  length (mark_same val later j handled) = length handled.
Proof.
  induction later as [|y later IH]; intros j handled; [done|].
  cbn. rewrite IH. destruct (val =? value y)%Z; [apply length_insert|done].
Qed.

(** A cell is marked after the look-ahead from [j] iff it was marked before
    or holds an entry on [val] at an index in [[j, n)]. *)
Lemma mark_same_lookup val todo : ∀ j handled k,
  j + todo = n → n ≤ length handled →
  mark_same val (drop j (take n buf)) j handled !!! k = true ↔
    handled !!! k = true ∨ (j ≤ k < n ∧ value (buf !!! k) = val).
Proof.
  induction todo as [|todo IH]; intros j handled k Hj Hh.
  - rewrite drop_take_nil by lia. cbn. split; [auto|]. intros [?|[? _]]; [done|lia].
  - rewrite drop_take_cons by lia. cbn [mark_same].
    rewrite IH; [|lia|].
    2:{ destruct (val =? _)%Z; rewrite ?length_insert; lia. }
    destruct (Z.eqb_spec val (value (buf !!! j))) as [->|Hne].
    + destruct (decide (k = j)) as [->|Hkj].
      * rewrite list_lookup_total_insert_eq by lia. split; [|auto].
        intros _. right. split; [lia|done].
      * rewrite list_lookup_total_insert_ne by done.
        split; intros [?|[? ?]]; auto; right; split; try done; lia.
    + split; intros [?|[? ?]]; auto; right; split; try done; try lia.
      destruct (decide (k = j)) as [->|]; [congruence|lia].
Qed.

Lemma resolve_ops_spec items todo : ∀ i handled seen optimised,
  i + todo = n → n ≤ length handled →
  (∀ k, i ≤ k < n → handled !!! k = true ↔ value (buf !!! k) ∈ seen) →
  resolve_ops todo i buf n items handled optimised =
    optimised ++ net_ops items seen (drop i (take n buf)).
Proof.
  induction todo as [|todo IH]; intros i handled seen optimised Hi Hh Hseen.
  - rewrite drop_take_nil by lia. cbn. by rewrite app_nil_r.
  - rewrite drop_take_cons by lia. cbn [resolve_ops net_ops].
    destruct (handled !!! i) eqn:Hhi.
    + rewrite decide_True by (apply Hseen; [lia|done]).
      apply IH; [lia|done|]. intros k Hk. apply Hseen. lia.
    + rewrite decide_False.
      2:{ intros Hin. apply Hseen in Hin; [congruence|lia]. }
      assert (Hagree : ∀ k, S i ≤ k < n →
        mark_same (value (buf !!! i)) (drop (S i) (take n buf)) (S i)
          (<[i:=true]> handled) !!! k = true ↔
        value (buf !!! k) ∈ value (buf !!! i) :: seen).
      { intros k Hk.
        rewrite (mark_same_lookup _ (n - S i)) by (rewrite ?length_insert; lia).
        rewrite list_lookup_total_insert_ne by lia.
        rewrite elem_of_cons, Hseen by lia.
        split; [intros [?|[_ ?]]; auto|intros [?|?]; [right; split; [lia|done]|auto]]. }
      unfold emitted.
      destruct (operation (buf !!! i)) eqn:Hop.
      * rewrite (look_ahead_add_spec i (n - S i)) by lia.
        rewrite (IH _ _ (value (buf !!! i) :: seen));
          [|lia|by rewrite length_mark_same, length_insert|done].
        destruct (_ && _); [by rewrite <-app_assoc|done].
      * rewrite (look_ahead_delete_spec i (n - S i)) by lia.
        rewrite (IH _ _ (value (buf !!! i) :: seen));
          [|lia|by rewrite length_mark_same, length_insert|done].
        destruct (_ && _); [by rewrite <-app_assoc|done].
Qed.
End loops.

Section passes.
Context (optimised : list BufferItem).

Lemma drop_lookup_cons {A} `{!Inhabited A} (l : list A) k :
  k < length l → drop k l = l !!! k :: drop (S k) l.
Proof. intros Hk. apply drop_S. by apply list_lookup_lookup_total_lt. Qed.

Lemma count_inserts_spec todo : ∀ inserts,
  inserts + todo = length optimised →
  count_inserts todo inserts optimised =
    inserts + length (leading_inserts (drop inserts optimised)).
Proof.
  induction todo as [|todo IH]; intros inserts Hlen.
  - rewrite drop_ge by lia. cbn. lia.
  - rewrite drop_lookup_cons by lia. cbn.
    destruct (operation (optimised !!! inserts)); [|cbn; lia].
    rewrite IH by lia. cbn. lia.
Qed.

Lemma leading_inserts_take (l : list BufferItem) :
  leading_inserts l = take (length (leading_inserts l)) l.
Proof.
  induction l as [|x l IH]; [done|]. cbn.
  destruct (operation x); [|done]. cbn. by rewrite <-IH.
Qed.

Lemma leading_inserts_all (l : list BufferItem) :
  Forall (λ x, operation x = InsertItem) (leading_inserts l).
Proof.
  induction l as [|x l IH]; [constructor|]. cbn.
  destruct (operation x) eqn:Hop; by constructor.
Qed.

Lemma resize_grow (items : list Z) m :
  Std.resize items (length items + m) = items ++ replicate m 0%Z.
Proof.
  unfold Std.resize. rewrite take_ge by lia. f_equal. f_equal. lia.
Qed.

Lemma resize_shrink (items : list Z) m :
  m ≤ length items → Std.resize items m = take m items.
Proof.
  intros Hm. unfold Std.resize.
  replace (m - length items) with 0 by lia. cbn. by rewrite app_nil_r.
Qed.

Lemma store_inserts_spec (items : list Z) inserts todo : ∀ i,
  i + todo = inserts → inserts ≤ length optimised →
  store_inserts todo i (length items) optimised
    (items ++ (value <$> take i optimised) ++ replicate todo 0%Z) =
  items ++ (value <$> take inserts optimised).
Proof.
  induction todo as [|todo IH]; intros i Hi Hlen.
  - cbn. rewrite app_nil_r. do 3 f_equal. lia.
  - cbn [store_inserts replicate].
    rewrite app_assoc, insert_app_r_alt;
      rewrite length_app, length_fmap, length_take; [|lia].
    replace (length items + i - (length items + i `min` length optimised))
      with 0 by lia.
    cbn [base.insert list_insert]. rewrite <-(IH (S i)) by lia.
    rewrite (take_S_r _ _ (optimised !!! i))
      by (apply list_lookup_lookup_total_lt; lia).
    rewrite fmap_app. cbn. by rewrite <-!app_assoc.
Qed.

Lemma delete_pass_spec todo : ∀ i (items : list Z) write_item_pos delete_pos,
  i + todo = length items → write_item_pos ≤ i →
  let r := delete_pass todo i optimised (length optimised) items
             write_item_pos delete_pos in
  r.2 ≤ length r.1 ∧
  take r.2 r.1 =
    take write_item_pos items
    ++ subtract (drop i items) (value <$> drop delete_pos optimised).
Proof.
  induction todo as [|todo IH]; intros i items w d Hi Hw; cbn zeta.
  - cbn. rewrite drop_ge by lia. cbn. rewrite app_nil_r. split; [lia|done].
  - cbn [delete_pass]. rewrite (drop_lookup_cons items) by lia.
    cbn [subtract].
    destruct (decide (d < length optimised)) as [Hd|Hd].
    + rewrite (drop_lookup_cons optimised) by done. cbn [fmap list_fmap].
      replace (d <? length optimised) with true
        by (symmetry; apply Nat.ltb_lt; lia).
      cbn [andb].
      destruct (items !!! i =? value (optimised !!! d))%Z.
      * apply IH; lia.
      * specialize (IH (S i) (<[w:=items !!! i]> items) (S w) d).
        rewrite length_insert in IH. destruct IH as [IH1 IH2]; [lia..|].
        split; [exact IH1|].
        rewrite IH2, drop_insert_lt by lia.
        rewrite (take_S_r _ _ (items !!! i))
          by (apply list_lookup_insert_eq; lia).
        rewrite take_insert_ge by lia. rewrite (drop_lookup_cons optimised) by done.
        by rewrite <-app_assoc.
    + replace (d <? length optimised) with false
        by (symmetry; apply Nat.ltb_ge; lia).
      cbn [andb]. rewrite (drop_ge optimised) by lia. cbn [fmap list_fmap].
      specialize (IH (S i) (<[w:=items !!! i]> items) (S w) d).
      rewrite length_insert in IH. destruct IH as [IH1 IH2]; [lia..|].
      split; [exact IH1|].
      rewrite IH2, drop_insert_lt by lia.
      rewrite (take_S_r _ _ (items !!! i))
        by (apply list_lookup_insert_eq; lia).
      rewrite take_insert_ge by lia. rewrite (drop_ge optimised) by lia.
      by rewrite <-app_assoc.
Qed.
End passes.

Section std_facts.
Context {A : Type} (lt : A → A → bool).

Lemma sorted_insert_perm x l : Std.sorted_insert lt x l ≡ₚ x :: l.
Proof.
  induction l as [|y l IH]; [done|]. cbn.
  destruct (lt x y); [done|]. rewrite IH. apply Permutation_swap.
Qed.

Lemma sort_perm l : Std.sort lt l ≡ₚ l.
Proof.
  induction l as [|x l IH]; [done|]. cbn. fold (Std.sort lt l).
  by rewrite sorted_insert_perm, IH.
Qed.

Lemma sort_length l : length (Std.sort lt l) = length l.
Proof. by rewrite sort_perm. Qed.
End std_facts.

Lemma merge_runs_nil_r l : Std.merge_runs l [] = l.
Proof. by destruct l. Qed.

Lemma subtract_nil_r l : subtract l [] = l.
Proof. induction l as [|x l IH]; [done|]. cbn. by rewrite IH. Qed.

Lemma length_leading_inserts l : length (leading_inserts l) ≤ length l.
Proof.
  induction l as [|x l IH]; [done|]. cbn. destruct (operation x); cbn; lia.
Qed.

Section make_ready_facts.
Variable BufferSize : nat.

Lemma make_ready_buffer_ops s : buffer_ops (make_ready BufferSize s) = 0.
Proof.
  unfold make_ready. destruct (buffer_ops s =? 0) eqn:H0.
  - cbn. by apply Nat.eqb_eq.
  - by destruct (delete_pass _ _ _ _ _ _ _).
Qed.

Lemma make_ready_op_buffer s : op_buffer (make_ready BufferSize s) = op_buffer s.
Proof.
  unfold make_ready. destruct (buffer_ops s =? 0); [done|].
  by destruct (delete_pass _ _ _ _ _ _ _).
Qed.

Lemma make_ready_state s : state (make_ready BufferSize s) = Ready.
Proof.
  unfold make_ready. destruct (buffer_ops s =? 0); [done|].
  by destruct (delete_pass _ _ _ _ _ _ _).
Qed.

(** The loops of [make_ready] compute [reconcile] on the pending log. *)
Lemma make_ready_items s :
  wf BufferSize s →
  items (make_ready BufferSize s) = reconcile (items s) (log s).
Proof.
  intros [Hlen Hops]. unfold make_ready, reconcile, log.
  destruct (buffer_ops s =? 0) eqn:H0.
  - apply Nat.eqb_eq in H0. rewrite H0. cbn.
    by rewrite merge_runs_nil_r, subtract_nil_r.
  - rewrite (resolve_ops_spec (op_buffer s) (buffer_ops s)
               ltac:(lia) (items s) (buffer_ops s) 0 _ []);
      [|lia|rewrite length_replicate; lia|].
    2:{ intros k Hk. rewrite lookup_total_replicate_2 by lia.
        split; [done|]. by intros ?%elem_of_nil. }
    cbn [app]. rewrite drop_0.
    set (net := net_ops (items s) [] (take (buffer_ops s) (op_buffer s))).
    set (opt := Std.sort BufferItem_lt net).
    assert (Hopt : length net = length opt) by (unfold opt; by rewrite sort_length).
    rewrite Hopt, count_inserts_spec by lia.
    rewrite drop_0. cbn [Nat.add].
    set (inserts := length (leading_inserts opt)).
    assert (Hins : inserts ≤ length opt) by apply length_leading_inserts.
    rewrite resize_grow.
    pose proof (store_inserts_spec opt (items s) inserts inserts 0) as Hst.
    rewrite take_0 in Hst. change (items s ++ (value <$> []) ++ ?l) with (items s ++ l) in Hst.
    rewrite Hst by lia. clear Hst.
    unfold Std.inplace_merge.
    rewrite length_app, length_fmap, length_take.
    replace (length (items s) + inserts `min` length opt - inserts)
      with (length (items s)) by lia.
    rewrite take_app_length, drop_app_length.
    pose proof (delete_pass_spec opt
      (length (Std.merge_runs (items s) (value <$> take inserts opt))) 0
      (Std.merge_runs (items s) (value <$> take inserts opt)) 0 inserts) as Hdel.
    cbn zeta in Hdel.
    destruct (delete_pass _ _ _ _ _ _ _) as [items4 w].
    cbn [fst snd] in Hdel. destruct Hdel as [Hw Hdel]; [lia..|].
    cbn [items]. by rewrite resize_shrink.
Qed.
End make_ready_facts.

(** ** Facts about the standard-library calls *)

Lemma binary_search_elem_of items val :
  Std.binary_search items val = true → val ∈ items.
Proof.
  unfold Std.binary_search. induction items as [|x items IH]; cbn; [done|].
  destruct (Z.ltb_spec x val) as [Hlt|Hge]; cbn.
  - intros H. right. by apply IH.
  - destruct (Z.ltb_spec val x); cbn; [done|]. intros _.
    replace val with x by lia. by left.
Qed.

Lemma binary_search_complete items val :
  strictly_increasing items → val ∈ items → Std.binary_search items val = true.
Proof.
  unfold Std.binary_search, strictly_increasing.
  induction items as [|x items IH]; intros Hs Hin; [by apply elem_of_nil in Hin|].
  apply StronglySorted_inv in Hs as [Hs Hx]. cbn.
  destruct (Z.ltb_spec x val) as [Hlt|Hge]; cbn.
  - apply IH; [done|]. apply elem_of_cons in Hin as [->|?]; [lia|done].
  - apply elem_of_cons in Hin as [->|Hin].
    + by rewrite Z.ltb_irrefl.
    + rewrite Forall_forall in Hx. apply Hx in Hin. lia.
Qed.

Lemma merge_runs_cons x l1 y l2 :
  Std.merge_runs (x :: l1) (y :: l2) =
    if (y <? x)%Z then y :: Std.merge_runs (x :: l1) l2
    else x :: Std.merge_runs l1 (y :: l2).
Proof. done. Qed.

Lemma merge_runs_nil_l l : Std.merge_runs [] l = l.
Proof. by destruct l. Qed.

Lemma merge_runs_perm l1 : ∀ l2, Std.merge_runs l1 l2 ≡ₚ l1 ++ l2.
Proof.
  induction l1 as [|x l1 IH1]; intros l2.
  - by rewrite merge_runs_nil_l.
  - induction l2 as [|y l2 IH2].
    + by rewrite merge_runs_nil_r, app_nil_r.
    + rewrite merge_runs_cons. destruct (y <? x)%Z.
      * rewrite IH2. by rewrite <-Permutation_middle.
      * by rewrite IH1.
Qed.

Lemma elem_of_merge_runs l1 l2 x :
  x ∈ Std.merge_runs l1 l2 ↔ x ∈ l1 ∨ x ∈ l2.
Proof. by rewrite merge_runs_perm, elem_of_app. Qed.

Lemma merge_runs_strictly_increasing l1 : ∀ l2,
  strictly_increasing l1 → strictly_increasing l2 →
  (∀ x, x ∈ l1 → x ∉ l2) →
  strictly_increasing (Std.merge_runs l1 l2).
Proof.
  unfold strictly_increasing.
  induction l1 as [|x l1 IH1]; intros l2 H1 H2 Hdis.
  - by rewrite merge_runs_nil_l.
  - induction l2 as [|y l2 IH2].
    + by rewrite merge_runs_nil_r.
    + rewrite merge_runs_cons.
      pose proof H1 as H1'. pose proof H2 as H2'.
      apply StronglySorted_inv in H1' as [H1s H1x].
      apply StronglySorted_inv in H2' as [H2s H2y].
      destruct (Z.ltb_spec y x) as [Hlt|Hge].
      * constructor.
        -- apply IH2; [done|]. intros z Hz Hz'. apply (Hdis z Hz). by right.
        -- rewrite merge_runs_perm. apply Forall_app. split; [|done].
           constructor; [done|]. eapply Forall_impl; [exact H1x|]. cbn. lia.
      * assert (x < y)%Z as Hxy.
        { assert (x ≠ y); [|lia]. intros ->. apply (Hdis y); by left. }
        constructor.
        -- apply IH1; [done..|]. intros z Hz. apply Hdis. by right.
        -- rewrite merge_runs_perm. apply Forall_app. split; [done|].
           constructor; [done|]. eapply Forall_impl; [exact H2y|]. cbn. lia.
Qed.

Lemma subtract_sublist l : ∀ dels, subtract l dels `sublist_of` l.
Proof.
  induction l as [|x l IH]; intros dels; cbn; [constructor|].
  destruct dels as [|d dels]; [by constructor|].
  destruct (x =? d)%Z; by constructor.
Qed.

Lemma elem_of_subtract l x : ∀ dels,
  x ∈ l → x ∉ dels → x ∈ subtract l dels.
Proof.
  induction l as [|y l IH]; intros dels Hin Hdel; cbn; [done|].
  apply elem_of_cons in Hin as [->|Hin].
  - destruct dels as [|d dels]; [by left|].
    destruct (Z.eqb_spec y d) as [->|]; [|by left].
    exfalso. apply Hdel. by left.
  - destruct dels as [|d dels]; [right; by apply IH|].
    destruct (y =? d)%Z.
    + apply IH; [done|]. intros ?. apply Hdel. by right.
    + right. by apply IH.
Qed.

Lemma StronglySorted_sublist {A} (R : relation A) l1 l2 :
  l1 `sublist_of` l2 → StronglySorted R l2 → StronglySorted R l1.
Proof.
  induction 1 as [|x l1 l2 Hsub IH|x l1 l2 Hsub IH]; intros Hs; [done|..].
  - apply StronglySorted_inv in Hs as [Hs Hx]. constructor; [by apply IH|].
    rewrite Forall_forall in Hx |- *. intros y Hy. apply Hx.
    by eapply sublist_subseteq.
  - apply StronglySorted_inv in Hs as [Hs _]. by apply IH.
Qed.

Lemma strictly_increasing_of_le l :
  StronglySorted Z.le l → NoDup l → strictly_increasing l.
Proof.
  unfold strictly_increasing.
  induction 1 as [|x l Hs IH Hx]; intros Hnd; [constructor|].
  apply NoDup_cons in Hnd as [Hx' Hnd]. constructor; [by apply IH|].
  rewrite Forall_forall in Hx |- *. intros y Hy.
  assert (x ≠ y) by (by intros ->). specialize (Hx y Hy). lia.
Qed.

Section sort_sorted.
Context {A : Type} (lt : A → A → bool).
Hypothesis lt_asym : ∀ a b, lt a b = true → lt b a = false.
Hypothesis le_trans : ∀ a b c, lt b a = false → lt c b = false → lt c a = false.

(** Sortedness is stated with "may precede": [b] is not less than [a]. *)
Lemma sorted_insert_sorted x l :
  StronglySorted (λ a b, lt b a = false) l →
  StronglySorted (λ a b, lt b a = false) (Std.sorted_insert lt x l).
Proof.
  induction 1 as [|y l Hs IH Hy]; cbn; [by repeat constructor|].
  destruct (lt x y) eqn:Hxy.
  - constructor; [by constructor|]. constructor; [by apply lt_asym|].
    eapply Forall_impl; [exact Hy|]. intros z Hz. cbn in *.
    eapply le_trans; [|exact Hz]. by apply lt_asym.
  - constructor; [done|]. rewrite sorted_insert_perm. by constructor.
Qed.

Lemma sort_sorted l : StronglySorted (λ a b, lt b a = false) (Std.sort lt l).
Proof.
  induction l as [|x l IH]; [constructor|]. by apply sorted_insert_sorted.
Qed.
End sort_sorted.

Lemma BufferItem_lt_asym a b : BufferItem_lt a b = true → BufferItem_lt b a = false.
Proof.
  destruct a as [[] va], b as [[] vb]; unfold BufferItem_lt; cbn; try done.
  all: intros ?%Z.ltb_lt; apply Z.ltb_ge; lia.
Qed.

Lemma BufferItem_le_trans a b c :
  BufferItem_lt b a = false → BufferItem_lt c b = false → BufferItem_lt c a = false.
Proof.
  destruct a as [[] va], b as [[] vb], c as [[] vc]; unfold BufferItem_lt; cbn;
    try done.
  all: intros ?%Z.ltb_ge ?%Z.ltb_ge; apply Z.ltb_ge; lia.
Qed.

Lemma sort_BufferItem_sorted l :
  StronglySorted (λ a b, BufferItem_lt b a = false) (Std.sort BufferItem_lt l).
Proof. apply sort_sorted; [apply BufferItem_lt_asym|apply BufferItem_le_trans]. Qed.

(** ** Properties of the net operations

    Facts that hold for every store, sorted or not. *)

Section net_ops_facts.
Context (items : list Z).

Lemma net_ops_elem_of l : ∀ seen x,
  x ∈ net_ops items seen l → x ∈ l ∧ value x ∉ seen.
Proof.
  induction l as [|y l IH]; intros seen x; cbn; [by intros ?%elem_of_nil|].
  destruct (decide (value y ∈ seen)) as [Hy|Hy].
  - intros [? ?]%IH. split; [by right|done].
  - rewrite elem_of_app. intros [Hx|Hx].
    + destruct (emitted _ _ _); [|by apply elem_of_nil in Hx].
      apply list_elem_of_singleton in Hx as ->. split; [by left|done].
    + apply IH in Hx as [? Hns]. split; [by right|].
      intros ?. apply Hns. by right.
Qed.

Lemma net_ops_seen l seen val :
  val ∈ seen → val ∉ value <$> net_ops items seen l.
Proof.
  intros Hin (x & -> & Hx)%list_elem_of_fmap.
  by apply net_ops_elem_of in Hx as [_ ?].
Qed.

Lemma net_ops_NoDup l : ∀ seen, NoDup (value <$> net_ops items seen l).
Proof.
  induction l as [|y l IH]; intros seen; cbn; [constructor|].
  destruct (decide (value y ∈ seen)); [apply IH|].
  rewrite fmap_app. apply NoDup_app. split_and!; [|  |apply IH].
  - destruct (emitted _ _ _); cbn; [apply NoDup_singleton|constructor].
  - intros v Hv. destruct (emitted _ _ _); [|by apply elem_of_nil in Hv].
    apply list_elem_of_singleton in Hv as ->. apply net_ops_seen. by left.
Qed.

Lemma net_ops_emitted l : ∀ seen x,
  x ∈ net_ops items seen l →
  Std.binary_search items (value x) =
    bool_decide (operation x = DeleteItem).
Proof.
  induction l as [|y l IH]; intros seen x; cbn; [by intros ?%elem_of_nil|].
  destruct (decide (value y ∈ seen)); [apply IH|].
  rewrite elem_of_app. intros [Hx|Hx]; [|by eapply IH].
  destruct (emitted _ _ _) eqn:Hem; [|by apply elem_of_nil in Hx].
  apply list_elem_of_singleton in Hx as ->. unfold emitted in Hem.
  destruct (operation y); cbn.
  - apply andb_true_iff in Hem as [_ Hem]. by apply negb_true_iff.
  - by apply andb_true_iff in Hem as [_ Hem].
Qed.

Lemma kinds_on_cons val x l :
  kinds_on val (x :: l) =
    if decide (value x = val) then operation x :: kinds_on val l
    else kinds_on val l.
Proof. unfold kinds_on. rewrite filter_cons. by destruct (decide _). Qed.

(** The look-ahead flag tells whether the last later entry on [val] has
    the kind of the entry the scan started from. *)
Lemma look_ahead_last kind val later : ∀ eventual,
  look_ahead kind val later eventual =
    match last (kinds_on val later) with
    | Some k => bool_decide (k = kind)
    | None => eventual
    end.
Proof.
  induction later as [|y later IH]; intros eventual; [done|].
  cbn [look_ahead]. rewrite kinds_on_cons, !IH.
  destruct (Z.eqb_spec val (value y)) as [->|Hne].
  - rewrite decide_True by done. rewrite last_cons.
    by destruct (last (kinds_on (value y) later)).
  - by rewrite decide_False by done.
Qed.

Lemma net_ops_conflicting l : ∀ seen val k1 k2,
  head (kinds_on val l) = Some k1 → last (kinds_on val l) = Some k2 →
  k1 ≠ k2 →
  val ∉ value <$> net_ops items seen l.
Proof.
  induction l as [|x l IH]; intros seen val k1 k2 Hhd Hlast Hk; [done|].
  cbn [net_ops]. rewrite kinds_on_cons in Hhd, Hlast.
  destruct (decide (value x = val)) as [Hx|Hx].
  - cbn in Hhd. injection Hhd as <-. rewrite last_cons in Hlast.
    destruct (decide (value x ∈ seen)) as [Hs|Hs];
      [apply net_ops_seen; by rewrite <-Hx|].
    rewrite Hx, look_ahead_last.
    destruct (last (kinds_on val l)) as [k|]; [|congruence].
    injection Hlast as ->. rewrite bool_decide_eq_false_2 by done.
    unfold emitted. destruct (operation x); cbn; apply net_ops_seen; by left.
  - destruct (decide (value x ∈ seen)); [by eapply IH|].
    rewrite fmap_app, elem_of_app. intros [Hv|Hv]; [|by eapply IH].
    destruct (emitted _ _ _); [|by apply elem_of_nil in Hv].
    by apply list_elem_of_singleton in Hv.
Qed.

Lemma look_ahead_app_other kind val later more : ∀ eventual,
  val ∉ value <$> more →
  look_ahead kind val (later ++ more) eventual =
    look_ahead kind val later eventual.
Proof.
  intros eventual Hm. rewrite !look_ahead_last. unfold kinds_on.
  rewrite filter_app.
  replace (filter (λ x, value x = val) more) with (@nil BufferItem);
    [by rewrite app_nil_r|].
  symmetry. induction more as [|y more IH]; [done|].
  rewrite fmap_cons, not_elem_of_cons in Hm. destruct Hm as [? ?].
  rewrite filter_cons_False by done. by apply IH.
Qed.

(** A pair of opposite entries on a value the log does not mention, appended
    to the log, contributes no net operation and disturbs no other value. *)
Lemma net_ops_app_opposite_pair l val k1 k2 : ∀ seen,
  k1 ≠ k2 → val ∉ value <$> l →
  net_ops items seen (l ++ [mkBufferItem k1 val; mkBufferItem k2 val]) =
    net_ops items seen l.
Proof.
  intros seen Hk. revert seen.
  induction l as [|x l IH]; intros seen Hl.
  - cbn. destruct (decide (val ∈ seen)); [done|].
    rewrite Z.eqb_refl, bool_decide_eq_false_2 by done.
    rewrite decide_True by (by left).
    unfold emitted. by destruct k1.
  - rewrite fmap_cons, not_elem_of_cons in Hl. destruct Hl as [Hx Hl].
    cbn. destruct (decide (value x ∈ seen)); [by apply IH|].
    rewrite IH, look_ahead_app_other; [done| |done].
    cbn. rewrite !not_elem_of_cons. split_and!; [done..|].
    by intros ?%elem_of_nil.
Qed.
End net_ops_facts.

Lemma kinds_on_app val l1 l2 :
  kinds_on val (l1 ++ l2) = kinds_on val l1 ++ kinds_on val l2.
Proof. unfold kinds_on. by rewrite filter_app, fmap_app. Qed.

Lemma kinds_on_other val l : val ∉ value <$> l → kinds_on val l = [].
Proof.
  induction l as [|b l IH]; [done|]. rewrite fmap_cons, not_elem_of_cons.
  intros [Hb Hl]. rewrite kinds_on_cons, decide_False by done. by apply IH.
Qed.

Section net_ops_filter.
Context (items : list Z) (val : Z).

Lemma kinds_on_filter_other w l :
  w ≠ val → kinds_on w (filter (λ b, value b ≠ val) l) = kinds_on w l.
Proof.
  intros Hw. unfold kinds_on. f_equal.
  induction l as [|b l IH]; [done|].
  destruct (decide (value b ≠ val)) as [Hb|Hb].
  - rewrite (filter_cons_True (λ b, value b ≠ val)) by done.
    by rewrite !filter_cons, IH.
  - rewrite (filter_cons_False (λ b, value b ≠ val)) by done.
    rewrite IH, (filter_cons_False (λ b, value b = w)); [done|].
    intros Heq. apply Hb. congruence.
Qed.

Lemma net_ops_seen_ext l : ∀ seen1 seen2,
  (∀ w, w ∈ value <$> l → w ∈ seen1 ↔ w ∈ seen2) →
  net_ops items seen1 l = net_ops items seen2 l.
Proof.
  induction l as [|x l IH]; intros seen1 seen2 Hext; [done|]. cbn.
  assert (value x ∈ seen1 ↔ value x ∈ seen2) as Hx by (apply Hext; by left).
  assert (∀ w, w ∈ value <$> l → w ∈ seen1 ↔ w ∈ seen2) as Hl
    by (intros w Hw; apply Hext; by right).
  destruct (decide (value x ∈ seen1)), (decide (value x ∈ seen2));
    [by apply IH|tauto|tauto|].
  f_equal. apply IH. intros w Hw. rewrite !elem_of_cons, (Hl w Hw). done.
Qed.

(** Entries on a value that is already handled, or whose first and last
    entries disagree, can be dropped from the log without changing the net
    operations. *)
Lemma net_ops_filter l : ∀ seen,
  val ∈ seen
  ∨ (∃ k1 k2, head (kinds_on val l) = Some k1
              ∧ last (kinds_on val l) = Some k2 ∧ k1 ≠ k2) →
  net_ops items seen l = net_ops items seen (filter (λ b, value b ≠ val) l).
Proof.
  induction l as [|x l IH]; intros seen Hv; [done|].
  rewrite filter_cons. destruct (decide (value x ≠ val)) as [Hx|Hx].
  - cbn [net_ops]. rewrite !look_ahead_last, kinds_on_filter_other by done.
    rewrite kinds_on_cons, decide_False in Hv by done.
    destruct (decide (value x ∈ seen)); [by apply IH|].
    f_equal. apply IH. destruct Hv as [?|?]; [left; by right|by right].
  - apply dec_stable in Hx. cbn [net_ops].
    destruct (decide (value x ∈ seen)) as [Hs|Hs].
    + apply IH. left. by rewrite <-Hx.
    + destruct Hv as [Hv|(k1 & k2 & Hhd & Hlast & Hk)]; [by rewrite <-Hx in Hv|].
      rewrite kinds_on_cons, decide_True in Hhd, Hlast by done.
      cbn in Hhd. injection Hhd as <-. rewrite last_cons in Hlast.
      rewrite Hx, look_ahead_last.
      destruct (last (kinds_on val l)) as [k|]; [|congruence].
      injection Hlast as ->. rewrite bool_decide_eq_false_2 by done.
      replace (emitted items x false) with false
        by (unfold emitted; by destruct (operation x)).
      cbn [app]. rewrite (IH (val :: seen)) by (left; by left).
      apply net_ops_seen_ext. intros w (b & -> & Hb)%list_elem_of_fmap.
      apply list_elem_of_filter in Hb as [Hb _].
      rewrite elem_of_cons. intuition congruence.
Qed.
End net_ops_filter.

Lemma filter_other_id val (l : list BufferItem) :
  val ∉ value <$> l → filter (λ b, value b ≠ val) l = l.
Proof.
  induction l as [|b l IH]; [done|]. rewrite fmap_cons, not_elem_of_cons.
  intros [Hb Hl]. rewrite filter_cons_True by done. by rewrite IH.
Qed.

Lemma elem_of_reconcile items l x :
  x ∈ reconcile items l → x ∈ items ∨ x ∈ value <$> net_ops items [] l.
Proof.
  unfold reconcile. intros Hx.
  apply (sublist_subseteq _ _ (subtract_sublist _ _)) in Hx.
  apply elem_of_merge_runs in Hx as [?|Hx]; [by left|right].
  rewrite fmap_take in Hx. apply (subseteq_take _ _) in Hx.
  by rewrite sort_perm in Hx.
Qed.

Lemma reconcile_keeps items l x :
  x ∈ items → x ∉ value <$> net_ops items [] l → x ∈ reconcile items l.
Proof.
  intros Hin Hnet. unfold reconcile. apply elem_of_subtract.
  - apply elem_of_merge_runs. by left.
  - intros Hx. apply Hnet. rewrite fmap_drop in Hx.
    apply (subseteq_drop _ _) in Hx. by rewrite sort_perm in Hx.
Qed.

(** ** What reconciliation does, exactly

    For a strictly increasing store the emitted entries, the two sorted runs
    and the result of the delete pass are characterised by membership. *)

Section net_ops_exact.
Context (items : list Z).

(** Exactly which entries the scan emits. *)
Lemma elem_of_net_ops l : ∀ seen b,
  b ∈ net_ops items seen l ↔
    (value b ∉ seen)
    ∧ head (kinds_on (value b) l) = Some (operation b)
    ∧ last (kinds_on (value b) l) = Some (operation b)
    ∧ Std.binary_search items (value b) = bool_decide (operation b = DeleteItem).
Proof.
  induction l as [|x l IH]; intros seen b.
  - cbn. split; [by intros ?%elem_of_nil|]. by intros (_ & ? & _).
  - cbn [net_ops]. rewrite kinds_on_cons.
    destruct (decide (value x ∈ seen)) as [Hs|Hs].
    + rewrite IH. destruct (decide (value x = value b)) as [Heq|]; [|done].
      rewrite <-Heq. split; intros (? & _); done.
    + rewrite elem_of_app, IH, not_elem_of_cons.
      destruct (decide (value x = value b)) as [Heq|Hne].
      * rewrite <-Heq, look_ahead_last, last_cons. cbn [head].
        split.
        -- intros [Hb|([]&_)]; [|done].
           destruct (emitted _ _ _) eqn:Hem; [|by apply elem_of_nil in Hb].
           apply list_elem_of_singleton in Hb as ->.
           unfold emitted in Hem.
           destruct (operation x), (last (kinds_on (value x) l)) as [[]|];
             cbn in Hem; try done; split_and!; try done;
             try (by apply negb_true_iff).
        -- intros (_ & Hop & Hlast & Hbs). left.
           injection Hop as Hop.
           assert (b = x) as -> by (destruct b, x; cbn in *; congruence).
           unfold emitted. rewrite Hbs.
           destruct (operation x), (last (kinds_on (value x) l)) as [[]|];
             cbn; try done; by left.
      * split.
        -- intros [Hb|(H1 & H2)]; [|split; [by apply H1|done]].
           destruct (emitted _ _ _); [|by apply elem_of_nil in Hb].
           by apply list_elem_of_singleton in Hb as ->.
        -- intros (H1 & H2). right. split; [|done]. split; [congruence|done].
Qed.
End net_ops_exact.

(** In a sorted scratch buffer every entry after the leading [InsertItem]
    run is a [DeleteItem]. *)
Lemma sorted_deletes_last opt :
  StronglySorted (λ a b, BufferItem_lt b a = false) opt →
  Forall (λ b, operation b = DeleteItem)
    (drop (length (leading_inserts opt)) opt).
Proof.
  induction 1 as [|x opt Hs IH Hx]; [constructor|]. cbn.
  destruct (operation x) eqn:Hop; [exact IH|]. cbn.
  constructor; [done|]. eapply Forall_impl; [exact Hx|]. cbn.
  intros b Hb. unfold BufferItem_lt in Hb. rewrite Hop in Hb.
  by destruct (operation b).
Qed.

Lemma same_kind_values_sorted kind l :
  StronglySorted (λ a b, BufferItem_lt b a = false) l →
  Forall (λ x, operation x = kind) l →
  StronglySorted Z.le (value <$> l).
Proof.
  induction 1 as [|x l Hs IH Hx]; intros Hop; [constructor|].
  apply Forall_cons in Hop as [Hopx Hop]. cbn. constructor; [by apply IH|].
  apply Forall_fmap. rewrite Forall_forall in Hx, Hop |- *. intros y Hy. cbn.
  specialize (Hx y Hy). specialize (Hop y Hy). unfold BufferItem_lt in Hx.
  rewrite Hopx, Hop, bool_decide_eq_true_2 in Hx by done. by apply Z.ltb_ge.
Qed.

Lemma elem_of_subtract_iff l : ∀ dels x,
  strictly_increasing l → strictly_increasing dels → dels ⊆ l →
  x ∈ subtract l dels ↔ x ∈ l ∧ x ∉ dels.
Proof.
  unfold strictly_increasing.
  induction l as [|y l IH]; intros dels x Hl Hd Hsub.
  - cbn. split; [by intros ?%elem_of_nil|]. by intros [?%elem_of_nil _].
  - apply StronglySorted_inv in Hl as [Hl Hy]. rewrite Forall_forall in Hy.
    destruct dels as [|d dels].
    + cbn. rewrite subtract_nil_r. split; [|by intros [? _]].
      intros ?. split; [done|]. by intros ?%elem_of_nil.
    + pose proof Hd as Hd0.
      apply StronglySorted_inv in Hd as [Hd Hdd]. rewrite Forall_forall in Hdd.
      cbn [subtract]. destruct (Z.eqb_spec y d) as [->|Hne].
      * rewrite IH; [|done..|].
        2:{ intros z Hz. assert (z ∈ d :: l) as Hzl by (apply Hsub; by right).
            apply elem_of_cons in Hzl as [->|?]; [|done].
            specialize (Hdd _ Hz). lia. }
        rewrite elem_of_cons, not_elem_of_cons. split.
        -- intros [Hx ?]. split_and!; [by right| |done].
           specialize (Hy _ Hx). lia.
        -- intros [[?|?] [? ?]]; [congruence|done].
      * assert (d :: dels ⊆ l) as Hsub'.
        { intros z Hz. assert (z ∈ y :: l) as Hzl by by apply Hsub.
          apply elem_of_cons in Hzl as [->|?]; [|done]. exfalso.
          assert (d ∈ y :: l) as Hdl by (apply Hsub; by left).
          apply elem_of_cons in Hdl as [?|Hdl]; [done|].
          specialize (Hy _ Hdl).
          apply elem_of_cons in Hz as [?|Hz]; [done|].
          specialize (Hdd _ Hz). lia. }
        rewrite (elem_of_cons (subtract _ _)), (elem_of_cons l), IH by done.
        split.
        -- intros [->|[? ?]]; [|split; [by right|done]].
           split; [by left|]. intros Hyd. apply Hsub' in Hyd.
           specialize (Hy _ Hyd). lia.
        -- intros [[->|?] ?]; [by left|by right].
Qed.

Lemma strictly_increasing_ext l1 l2 :
  strictly_increasing l1 → strictly_increasing l2 →
  (∀ x, x ∈ l1 ↔ x ∈ l2) → l1 = l2.
Proof.
  unfold strictly_increasing. intros H1 H2 Hext.
  assert (∀ l, StronglySorted Z.lt l → NoDup l) as Hnd.
  { induction 1 as [|x l Hl IH Hx]; constructor; [|done].
    intros Hin. rewrite Forall_forall in Hx. apply Hx in Hin. lia. }
  eapply (@StronglySorted_unique_strong _ Z.lt); [|done..|].
  - intros x y _ _ ? ?. lia.
  - apply NoDup_Permutation; auto.
Qed.

Section reconcile_exact.
Context (items : list Z) (l : list BufferItem).
Hypothesis Hitems : strictly_increasing items.

Let opt := Std.sort BufferItem_lt (net_ops items [] l).
Let n := length (leading_inserts opt).

Lemma binary_search_iff x : Std.binary_search items x = true ↔ x ∈ items.
Proof.
  split; [apply binary_search_elem_of|by apply binary_search_complete].
Qed.

Lemma elem_of_net_inserts x :
  x ∈ value <$> take n opt ↔ mkBufferItem InsertItem x ∈ net_ops items [] l.
Proof.
  rewrite <-(sort_perm BufferItem_lt (net_ops items [] l)). fold opt.
  unfold n. rewrite <-leading_inserts_take. split.
  - intros (b & -> & Hb)%list_elem_of_fmap.
    pose proof (leading_inserts_all opt) as Hall.
    rewrite Forall_forall in Hall. pose proof (Hall b Hb) as Hop.
    rewrite leading_inserts_take in Hb. apply (subseteq_take _ _) in Hb.
    destruct b as [k v]. cbn in *. by subst k.
  - intros Hb. rewrite <-(take_drop n opt) in Hb.
    apply elem_of_app in Hb as [Hb|Hb].
    + unfold n in Hb. rewrite <-leading_inserts_take in Hb.
      by apply (list_elem_of_fmap_2 value) in Hb.
    + pose proof (sorted_deletes_last opt (sort_BufferItem_sorted _)) as Hd.
      rewrite Forall_forall in Hd. by apply Hd in Hb.
Qed.

Lemma elem_of_net_deletes x :
  x ∈ value <$> drop n opt ↔ mkBufferItem DeleteItem x ∈ net_ops items [] l.
Proof.
  rewrite <-(sort_perm BufferItem_lt (net_ops items [] l)). fold opt.
  pose proof (sorted_deletes_last opt (sort_BufferItem_sorted _)) as Hd.
  rewrite Forall_forall in Hd. fold n in Hd. split.
  - intros (b & -> & Hb)%list_elem_of_fmap. pose proof (Hd b Hb) as Hop.
    apply (subseteq_drop _ _) in Hb. destruct b as [k v]. cbn in *. by subst k.
  - intros Hb. rewrite <-(take_drop n opt) in Hb.
    apply elem_of_app in Hb as [Hb|Hb].
    + unfold n in Hb. rewrite <-leading_inserts_take in Hb.
      pose proof (leading_inserts_all opt) as Hall.
      rewrite Forall_forall in Hall. by apply Hall in Hb.
    + by apply (list_elem_of_fmap_2 value) in Hb.
Qed.

Lemma net_values_NoDup : NoDup (value <$> opt).
Proof. unfold opt. rewrite sort_perm. apply net_ops_NoDup. Qed.

Lemma net_inserts_strictly_increasing : strictly_increasing (value <$> take n opt).
Proof.
  apply strictly_increasing_of_le.
  - unfold n. rewrite <-leading_inserts_take.
    apply (same_kind_values_sorted InsertItem); [|apply leading_inserts_all].
    eapply StronglySorted_sublist; [|apply sort_BufferItem_sorted].
    rewrite leading_inserts_take. apply sublist_take.
  - eapply sublist_NoDup; [apply net_values_NoDup|].
    apply fmap_sublist, sublist_take.
Qed.

Lemma net_deletes_strictly_increasing : strictly_increasing (value <$> drop n opt).
Proof.
  apply strictly_increasing_of_le.
  - apply (same_kind_values_sorted DeleteItem).
    + eapply StronglySorted_sublist; [apply sublist_drop|].
      apply sort_BufferItem_sorted.
    + apply sorted_deletes_last, sort_BufferItem_sorted.
  - eapply sublist_NoDup; [apply net_values_NoDup|].
    apply fmap_sublist, sublist_drop.
Qed.

Lemma merged_strictly_increasing :
  strictly_increasing (Std.merge_runs items (value <$> take n opt)).
Proof.
  apply merge_runs_strictly_increasing;
    [done|apply net_inserts_strictly_increasing|].
  intros x Hx Hb%elem_of_net_inserts%net_ops_emitted. cbn in Hb.
  apply binary_search_iff in Hx. rewrite Hx in Hb. by case_bool_decide.
Qed.

(** Membership after reconciliation, by the first and last kind of the
    entries on [x]. *)
Lemma elem_of_reconcile_iff x :
  x ∈ reconcile items l ↔
    match head (kinds_on x l), last (kinds_on x l) with
    | Some InsertItem, Some InsertItem => True
    | Some DeleteItem, Some DeleteItem => False
    | _, _ => x ∈ items
    end.
Proof.
  unfold reconcile. fold opt. fold n.
  rewrite elem_of_subtract_iff;
    [|apply merged_strictly_increasing|apply net_deletes_strictly_increasing|].
  2:{ intros d Hd. apply elem_of_merge_runs. left.
      apply elem_of_net_deletes, net_ops_emitted in Hd. cbn in Hd.
      apply binary_search_iff. rewrite Hd. by case_bool_decide. }
  rewrite elem_of_merge_runs, elem_of_net_inserts, elem_of_net_deletes.
  assert (∀ k, mkBufferItem k x ∈ net_ops items [] l ↔
            head (kinds_on x l) = Some k ∧ last (kinds_on x l) = Some k
            ∧ Std.binary_search items x = bool_decide (k = DeleteItem)) as Hnet.
  { intros k. rewrite elem_of_net_ops. cbn [value operation].
    split; [by intros (_ & ?)|]. intros ?. split; [|done].
    by intros ?%elem_of_nil. }
  rewrite !Hnet. clear Hnet.
  rewrite bool_decide_eq_false_2, bool_decide_eq_true_2 by done.
  pose proof (binary_search_iff x) as Hbs.
  destruct (head (kinds_on x l)) as [[]|], (last (kinds_on x l)) as [[]|],
    (Std.binary_search items x); intuition congruence.
Qed.
End reconcile_exact.

Lemma reconcile_strictly_increasing items l :
  strictly_increasing items → strictly_increasing (reconcile items l).
Proof.
  intros Hs. unfold reconcile.
  eapply StronglySorted_sublist; [apply subtract_sublist|].
  by apply merged_strictly_increasing.
Qed.

(** ** The reference set *)

Lemma elem_of_ref_insert val l x : x ∈ ref_insert val l ↔ x = val ∨ x ∈ l.
Proof.
  induction l as [|y l IH]; cbn.
  - rewrite list_elem_of_singleton. split; [by left|]. by intros [?|?%elem_of_nil].
  - destruct (Z.ltb_spec val y); [by rewrite elem_of_cons|].
    destruct (Z.eqb_spec val y) as [->|].
    + rewrite elem_of_cons. intuition congruence.
    + rewrite !elem_of_cons, IH. intuition congruence.
Qed.

Lemma elem_of_ref_erase val l x : x ∈ ref_erase val l ↔ x ≠ val ∧ x ∈ l.
Proof.
  induction l as [|y l IH]; cbn.
  - split; [by intros ?%elem_of_nil|]. by intros [_ ?%elem_of_nil].
  - destruct (Z.eqb_spec val y) as [->|].
    + rewrite IH, elem_of_cons. intuition congruence.
    + rewrite !elem_of_cons, IH. intuition congruence.
Qed.

Lemma ref_insert_strictly_increasing val l :
  strictly_increasing l → strictly_increasing (ref_insert val l).
Proof.
  unfold strictly_increasing.
  induction 1 as [|y l Hl IH Hy]; cbn; [by repeat constructor|].
  destruct (Z.ltb_spec val y).
  - constructor; [by constructor|]. constructor; [done|].
    eapply Forall_impl; [exact Hy|]. cbn. lia.
  - destruct (Z.eqb_spec val y); [by constructor|].
    constructor; [done|]. apply Forall_forall. intros x Hx.
    apply elem_of_ref_insert in Hx as [->|Hx]; [lia|].
    rewrite Forall_forall in Hy. by apply Hy.
Qed.

Lemma ref_erase_sublist val l : ref_erase val l `sublist_of` l.
Proof.
  induction l as [|y l IH]; cbn; [done|].
  destruct (val =? y)%Z; by constructor.
Qed.

Lemma ref_apply_entry_strictly_increasing l b :
  strictly_increasing l → strictly_increasing (ref_apply_entry l b).
Proof.
  intros Hl. unfold ref_apply_entry. destruct (operation b).
  - by apply ref_insert_strictly_increasing.
  - eapply StronglySorted_sublist; [apply ref_erase_sublist|done].
Qed.

Lemma foldl_ref_strictly_increasing log : ∀ l,
  strictly_increasing l → strictly_increasing (foldl ref_apply_entry l log).
Proof.
  induction log as [|b log IH]; intros l Hl; [done|].
  cbn. by apply IH, ref_apply_entry_strictly_increasing.
Qed.

(** In the reference set the last entry on a value decides. *)
Lemma elem_of_foldl_ref log : ∀ l x,
  x ∈ foldl ref_apply_entry l log ↔
    match last (kinds_on x log) with
    | Some InsertItem => True
    | Some DeleteItem => False
    | None => x ∈ l
    end.
Proof.
  induction log as [|b log IH]; intros l x; [done|].
  cbn [foldl]. rewrite IH, kinds_on_cons.
  destruct (decide (value b = x)) as [<-|Hne].
  - rewrite last_cons. destruct (last (kinds_on (value b) log)) as [[]|]; [done..|].
    unfold ref_apply_entry. destruct (operation b).
    + rewrite elem_of_ref_insert. intuition congruence.
    + rewrite elem_of_ref_erase. intuition congruence.
  - destruct (last (kinds_on x log)) as [[]|]; [done..|].
    unfold ref_apply_entry. destruct (operation b).
    + rewrite elem_of_ref_insert. intuition congruence.
    + rewrite elem_of_ref_erase. intuition congruence.
Qed.

Lemma reconcile_conflict_free items log :
  strictly_increasing items →
  (∀ x, head (kinds_on x log) = last (kinds_on x log)) →
  reconcile items log = foldl ref_apply_entry items log.
Proof.
  intros Hs Hfree. apply strictly_increasing_ext.
  - by apply reconcile_strictly_increasing.
  - by apply foldl_ref_strictly_increasing.
  - intros x. rewrite elem_of_reconcile_iff, elem_of_foldl_ref by done.
    rewrite Hfree. by destruct (last (kinds_on x log)) as [[]|].
Qed.

(** ** The search loop of [find] *)

Lemma strictly_increasing_lookup l i j x y :
  strictly_increasing l → i < j → l !! i = Some x → l !! j = Some y → (x < y)%Z.
Proof.
  unfold strictly_increasing. intros Hs. revert i j.
  induction Hs as [|z l Hs IH Hz]; intros i j Hij Hi Hj; [done|].
  destruct j as [|j]; [lia|]. cbn in Hj. destruct i as [|i].
  - cbn in Hi. injection Hi as ->. rewrite Forall_forall in Hz.
    apply Hz. by eapply list_elem_of_lookup_2.
  - cbn in Hi. apply (IH i j); [lia|done..].
Qed.

Section find_facts.
Context (items : list Z) (val : Z).

Lemma find_loop_present i :
  strictly_increasing items → items !! i = Some val →
  ∀ fuel beg end', beg ≤ i < end' → end' ≤ length items →
    end' - beg ≤ fuel →
    find_loop fuel items val beg end' = Some i.
Proof.
  intros Hs Hi. induction fuel as [|fuel IH]; intros beg end' Hb He Hf; [lia|].
  cbn [find_loop]. replace (beg <? end') with true
    by (symmetry; apply Nat.ltb_lt; lia).
  cbn zeta. set (med := beg + (end' - beg) / 2).
  assert (beg ≤ med < end') as Hmed by (unfold med; split; [lia|];
    pose proof (Nat.div_lt (end' - beg) 2); lia).
  assert (items !! med = Some (items !!! med)) as Hm
    by (apply list_lookup_lookup_total_lt; lia).
  destruct (Z.eqb_spec (items !!! med) val) as [Heq|Hne].
  - f_equal. destruct (Nat.lt_total med i) as [Hlt|[->|Hgt]]; [|done|].
    + pose proof (strictly_increasing_lookup _ _ _ _ _ Hs Hlt Hm Hi). lia.
    + pose proof (strictly_increasing_lookup _ _ _ _ _ Hs Hgt Hi Hm). lia.
  - rewrite Z.gtb_ltb. destruct (Z.ltb_spec val (items !!! med)) as [Hgt|Hle].
    + apply IH; [|lia..]. split; [lia|].
      destruct (Nat.lt_total i med) as [?|[->|Hlt]]; [done|congruence|].
      pose proof (strictly_increasing_lookup _ _ _ _ _ Hs Hlt Hm Hi). lia.
    + assert (med < i) as Hmi.
      { destruct (Nat.lt_total med i) as [?|[->|Hlt]]; [done|congruence|].
        pose proof (strictly_increasing_lookup _ _ _ _ _ Hs Hlt Hi Hm). lia. }
      apply IH; [lia..|].
      assert (beg < med); [|lia].
      destruct (decide (beg = med)) as [Hbm|]; [|lia].
      assert ((end' - beg) / 2 = 0) as Hd by (unfold med in Hbm; lia).
      apply Nat.div_small_iff in Hd; lia.
Qed.

Lemma find_loop_below :
  Forall (λ x, val < x)%Z items →
  ∀ fuel end', end' ≤ length items → end' < fuel →
    find_loop fuel items val 0 end' = Some (length items).
Proof.
  intros Hall. induction fuel as [|fuel IH]; intros end' He Hf; [lia|].
  cbn [find_loop]. destruct (Nat.ltb_spec 0 end') as [Hpos|]; [|done].
  cbn zeta. set (med := 0 + (end' - 0) / 2).
  assert (med < end') as Hmed
    by (unfold med; pose proof (Nat.div_lt end' 2); rewrite Nat.sub_0_r; lia).
  assert (val < items !!! med)%Z as Hlt.
  { rewrite Forall_forall in Hall. apply Hall.
    apply list_elem_of_lookup_total_2. lia. }
  destruct (Z.eqb_spec (items !!! med) val); [lia|].
  rewrite Z.gtb_ltb. destruct (Z.ltb_spec val (items !!! med)); [|lia].
  apply IH; lia.
Qed.

Lemma find_loop_never_returns :
  val ∉ items →
  ∀ fuel beg end', beg < end' → end' ≤ length items →
    (items !!! beg < val)%Z →
    find_loop fuel items val beg end' = None.
Proof.
  intros Habs. induction fuel as [|fuel IH]; intros beg end' Hb He Hlt; [done|].
  cbn [find_loop]. replace (beg <? end') with true
    by (symmetry; apply Nat.ltb_lt; lia).
  cbn zeta. set (med := beg + (end' - beg) / 2).
  assert (beg ≤ med < end') as Hmed by (unfold med; split; [lia|];
    pose proof (Nat.div_lt (end' - beg) 2); lia).
  destruct (Z.eqb_spec (items !!! med) val) as [Heq|Hne].
  { exfalso. apply Habs. rewrite <-Heq. apply list_elem_of_lookup_total_2. lia. }
  rewrite Z.gtb_ltb. destruct (Z.ltb_spec val (items !!! med)) as [Hgt|Hle].
  - apply IH; [|lia|done].
    destruct (decide (beg = med)) as [Hbm|]; [|lia]. rewrite <-Hbm in Hgt. lia.
  - apply IH; [lia..|]. lia.
Qed.
End find_facts.

(** ** The public operations *)

Section api_facts.
Variable BufferSize : nat.

Lemma wf_new_set unset : wf BufferSize (new_set BufferSize unset).
Proof. split; cbn; [by rewrite length_fmap, length_seq|lia]. Qed.

Lemma wf_make_ready s : wf BufferSize s → wf BufferSize (make_ready BufferSize s).
Proof.
  intros [? ?]. split; [by rewrite make_ready_op_buffer|].
  rewrite make_ready_buffer_ops. lia.
Qed.

Lemma net_operations_spec s :
  wf BufferSize s →
  net_operations BufferSize s = net_ops (items s) [] (log s).
Proof.
  intros [Hlen Hops]. unfold net_operations, log.
  rewrite (resolve_ops_spec (op_buffer s) (buffer_ops s)
             ltac:(lia) (items s) (buffer_ops s) 0 _ []);
    [by rewrite drop_0|lia|rewrite length_replicate; lia|].
  intros k Hk. rewrite lookup_total_replicate_2 by lia.
  split; [done|]. by intros ?%elem_of_nil.
Qed.

Lemma take_record {A} (buf : list A) n x :
  n < length buf → take (S n) (<[n:=x]> buf) = take n buf ++ [x].
Proof.
  intros Hn. rewrite (take_S_r _ _ x) by (by apply list_lookup_insert_eq).
  by rewrite take_insert_ge.
Qed.

(** What appending one entry does, shared by [insert] and [erase]. *)
Lemma record_spec s x :
  0 < BufferSize → wf BufferSize s →
  let s0 := if buffer_ops s =? BufferSize then make_ready BufferSize s else s in
  let s' := {| op_buffer := <[buffer_ops s0 := x]> (op_buffer s0);
               buffer_ops := S (buffer_ops s0);
               state := state s0; items := items s0 |} in
  wf BufferSize s' ∧
  log s' = (if buffer_ops s =? BufferSize then [] else log s) ++ [x] ∧
  items s' =
    (if buffer_ops s =? BufferSize then items (make_ready BufferSize s)
     else items s).
Proof.
  intros HC [Hlen Hops]. cbn zeta. unfold wf, log. cbn.
  destruct (Nat.eqb_spec (buffer_ops s) BufferSize) as [Hfull|Hroom].
  - rewrite make_ready_buffer_ops, make_ready_op_buffer, length_insert.
    split_and!; [done|lia| |done].
    by rewrite take_record by lia.
  - rewrite length_insert. split_and!; [done|lia| |done].
    by rewrite take_record by lia.
Qed.

Lemma insert_spec val s :
  0 < BufferSize → wf BufferSize s →
  wf BufferSize (insert BufferSize val s) ∧
  log (insert BufferSize val s) =
    (if buffer_ops s =? BufferSize then [] else log s)
    ++ [mkBufferItem InsertItem val] ∧
  items (insert BufferSize val s) =
    (if buffer_ops s =? BufferSize then items (make_ready BufferSize s)
     else items s).
Proof. apply record_spec. Qed.

Lemma erase_spec val s :
  0 < BufferSize → wf BufferSize s →
  wf BufferSize (erase BufferSize val s) ∧
  log (erase BufferSize val s) =
    (if buffer_ops s =? BufferSize then [] else log s)
    ++ [mkBufferItem DeleteItem val] ∧
  items (erase BufferSize val s) =
    (if buffer_ops s =? BufferSize then items (make_ready BufferSize s)
     else items s).
Proof. apply record_spec. Qed.

Lemma length_log s : wf BufferSize s → length (log s) = buffer_ops s.
Proof. intros [? ?]. unfold log. rewrite length_take. lia. Qed.

Lemma wf_run calls : ∀ s,
  0 < BufferSize → wf BufferSize s → wf BufferSize (run BufferSize calls s).
Proof.
  induction calls as [|c calls IH]; intros s HC Hwf; [done|].
  cbn. apply IH; [done|]. destruct c; cbn.
  - by apply insert_spec.
  - by apply erase_spec.
  - by apply wf_make_ready.
Qed.

(** Two opposite entries on a fresh value, recorded back to back in a batch
    with room for both, leave the outcome of the reconciliation as it would
    have been without them. *)
Lemma opposite_pair_cancels s val k1 k2 s1 s2 :
  wf BufferSize s → buffer_ops s + 2 ≤ BufferSize →
  val ∉ value <$> log s → k1 ≠ k2 →
  wf BufferSize s1 → log s1 = log s ++ [mkBufferItem k1 val] → items s1 = items s →
  wf BufferSize s2 → log s2 = log s1 ++ [mkBufferItem k2 val] → items s2 = items s1 →
  items (make_ready BufferSize s2) = items (make_ready BufferSize s).
Proof.
  intros Hwf Hroom Hval Hk Hwf1 Hl1 Hi1 Hwf2 Hl2 Hi2.
  rewrite !make_ready_items by done.
  rewrite Hl2, Hl1, Hi2, Hi1, <-app_assoc. cbn [app]. unfold reconcile.
  by rewrite net_ops_app_opposite_pair.
Qed.
End api_facts.

Lemma contents_make_ready BufferSize s :
  contents BufferSize s = items (make_ready BufferSize s).
Proof. done. Qed.

Section batches.
Context (BufferSize : nat).

(** Calls that fit into the log are appended to it and leave the store
    alone. *)
Lemma run_within_batch calls : ∀ s,
  wf BufferSize s →
  Forall (λ c, c ≠ CallBegin) calls →
  buffer_ops s + length calls ≤ BufferSize →
  wf BufferSize (run BufferSize calls s)
  ∧ log (run BufferSize calls s) = log s ++ omap call_entry calls
  ∧ items (run BufferSize calls s) = items s.
Proof.
  induction calls as [|c calls IH]; intros s Hwf Hcalls Hroom.
  - cbn. by rewrite app_nil_r.
  - apply Forall_cons in Hcalls as [Hc Hcalls]. cbn in Hroom.
    assert (0 < BufferSize) as HC by lia.
    assert (∀ b s', wf BufferSize s' →
              log s' = (if buffer_ops s =? BufferSize then [] else log s) ++ [b] →
              items s' = (if buffer_ops s =? BufferSize
                          then items (make_ready BufferSize s) else items s) →
              wf BufferSize (run BufferSize calls s')
              ∧ log (run BufferSize calls s') = log s ++ b :: omap call_entry calls
              ∧ items (run BufferSize calls s') = items s) as Hstep.
    { intros b s' Hwf' Hl' Hi'.
      destruct (Nat.eqb_spec (buffer_ops s) BufferSize) as [|_]; [lia|].
      destruct (IH s' Hwf' Hcalls) as (? & Hl & Hi).
      - rewrite <-(length_log BufferSize s'), Hl', length_app,
          (length_log BufferSize s) by done. cbn. lia.
      - split_and!; [done| |congruence].
        by rewrite Hl, Hl', <-app_assoc. }
    destruct c as [val|val|]; [..|done]; cbn.
    + destruct (insert_spec BufferSize val s HC Hwf) as (? & ? & ?).
      by apply Hstep.
    + destruct (erase_spec BufferSize val s HC Hwf) as (? & ? & ?).
      by apply Hstep.
Qed.

Lemma omap_call_entry_other val calls :
  Forall (writes_other val) calls → val ∉ value <$> omap call_entry calls.
Proof.
  induction 1 as [|c calls Hc _ IH]; [by intros ?%elem_of_nil|].
  destruct c as [w|w|]; cbn in *; [..|done];
    rewrite not_elem_of_cons; by split.
Qed.

Lemma writes_other_no_read val calls :
  Forall (writes_other val) calls → Forall (λ c, c ≠ CallBegin) calls.
Proof. intros H. eapply Forall_impl; [exact H|]. by intros []. Qed.
End batches.

(** ** Call sequences that never both insert and erase a value *)

Lemma head_last_uniform {A} (ks : list A) :
  (∀ k1 k2, k1 ∈ ks → k2 ∈ ks → k1 = k2) → head ks = last ks.
Proof.
  destruct ks as [|k ks]; [done|]. intros Hall. cbn [head].
  destruct (last (k :: ks)) as [k'|] eqn:Hl.
  - f_equal. apply Hall; [by left|by apply last_Some_elem_of].
  - by apply last_None in Hl.
Qed.

Lemma elem_of_kinds_on val l k :
  k ∈ kinds_on val l ↔ mkBufferItem k val ∈ l.
Proof.
  unfold kinds_on. rewrite list_elem_of_fmap. split.
  - intros (b & -> & [Hv Hb]%list_elem_of_filter). destruct b; cbn in *. by subst.
  - intros Hb. exists (mkBufferItem k val). split; [done|].
    by apply list_elem_of_filter.
Qed.

Lemma log_make_ready BufferSize s : log (make_ready BufferSize s) = [].
Proof. unfold log. by rewrite make_ready_buffer_ops. Qed.

Section unmixed_calls.
Context (BufferSize : nat) (all : list call).
Hypothesis HBufferSize : 0 < BufferSize.
Hypothesis Hall : unmixed all.

(** Invariant of the run: the container is well formed and sorted, its
    pending entries stem from [all], and applying them to the store one at
    a time gives the reference set [r]. *)
Let inv (s : contiguous_set) (r : list Z) : Prop :=
  wf BufferSize s ∧ strictly_increasing (items s)
  ∧ (∀ b, b ∈ log s →
       match operation b with
       | InsertItem => value b ∈ inserted all
       | DeleteItem => value b ∈ erased all
       end)
  ∧ foldl ref_apply_entry (items s) (log s) = r.

Lemma inv_conflict_free s r x :
  inv s r → head (kinds_on x (log s)) = last (kinds_on x (log s)).
Proof.
  intros (_ & _ & Hlog & _). apply head_last_uniform.
  intros k1 k2 H1%elem_of_kinds_on%Hlog H2%elem_of_kinds_on%Hlog.
  cbn in H1, H2. unfold unmixed in Hall. rewrite Forall_forall in Hall.
  destruct k1, k2; try done; exfalso; by eapply Hall.
Qed.

Lemma inv_make_ready s r : inv s r → inv (make_ready BufferSize s) r.
Proof.
  intros Hinv. pose proof Hinv as (Hwf & Hs & Hlog & Hr).
  assert (items (make_ready BufferSize s) = r) as Hitems.
  { rewrite make_ready_items, reconcile_conflict_free; [done|done| |done].
    intros x. by eapply inv_conflict_free. }
  split_and!.
  - by apply wf_make_ready.
  - rewrite Hitems, <-Hr. by apply foldl_ref_strictly_increasing.
  - rewrite log_make_ready. by intros b ?%elem_of_nil.
  - by rewrite log_make_ready.
Qed.

Lemma inv_record s r s' b :
  inv s r →
  match operation b with
  | InsertItem => value b ∈ inserted all
  | DeleteItem => value b ∈ erased all
  end →
  wf BufferSize s' →
  log s' = (if buffer_ops s =? BufferSize then [] else log s) ++ [b] →
  items s' = (if buffer_ops s =? BufferSize
              then items (make_ready BufferSize s) else items s) →
  inv s' (ref_apply_entry r b).
Proof.
  intros Hinv Hb Hwf' Hlog' Hitems'.
  pose proof (inv_make_ready s r Hinv) as (_ & Hs0 & Hlog0 & Hr0).
  destruct Hinv as (Hwf & Hs & Hlog & Hr).
  rewrite log_make_ready in Hr0. cbn in Hr0.
  split_and!; [done|..]; rewrite ?Hlog', ?Hitems';
    destruct (buffer_ops s =? BufferSize).
  - done.
  - done.
  - intros b' ->%list_elem_of_singleton. done.
  - intros b' [?| ->%list_elem_of_singleton]%elem_of_app; [by apply Hlog|done].
  - cbn. by rewrite Hr0.
  - by rewrite foldl_app, Hr.
Qed.

Lemma inv_apply_call s r c :
  c ∈ all → inv s r → inv (apply_call BufferSize s c) (ref_apply r c).
Proof.
  intros Hc Hinv. pose proof Hinv as (Hwf & _). destruct c as [val|val|]; cbn.
  - destruct (insert_spec BufferSize val s HBufferSize Hwf) as (? & ? & ?).
    apply (inv_record s r _ (mkBufferItem InsertItem val)); try done.
    cbn. apply list_elem_of_omap. by exists (CallInsert val).
  - destruct (erase_spec BufferSize val s HBufferSize Hwf) as (? & ? & ?).
    apply (inv_record s r _ (mkBufferItem DeleteItem val)); try done.
    cbn. apply list_elem_of_omap. by exists (CallErase val).
  - by apply inv_make_ready.
Qed.

Lemma inv_run calls : ∀ s r,
  calls ⊆ all → inv s r →
  inv (run BufferSize calls s) (foldl ref_apply r calls).
Proof.
  induction calls as [|c calls IH]; intros s r Hsub Hinv; [done|].
  cbn. apply IH.
  - intros c' Hc'. apply Hsub. by right.
  - apply inv_apply_call; [|done]. apply Hsub. by left.
Qed.

Lemma run_unmixed unset :
  contents BufferSize (run BufferSize all (new_set BufferSize unset))
    = ref_run all.
Proof.
  assert (inv (new_set BufferSize unset) []) as Hinv0.
  { split_and!; [apply wf_new_set|constructor| |done].
    by intros b ?%elem_of_nil. }
  pose proof (inv_run all _ _ (reflexivity _) Hinv0) as Hinv.
  apply inv_make_ready in Hinv as (_ & _ & _ & Hr).
  by rewrite log_make_ready in Hr.
Qed.
End unmixed_calls.

(** ** Where the class departs from its specification *)

(** C1 (fails on the code).  Set equivalence: the contents observed after
    reconciliation equal those of the reference ordered set to which the same
    calls were applied.  On a fresh container the calls [erase(1); insert(1)]
    leave the store empty, while the reference set holds [1]: the scan starts
    from the [DeleteItem] entry, the later [InsertItem] only clears
    [eventual_delete], and nothing is emitted. *)
Theorem set_equivalence_fails (unset : nat → BufferItem) :
  let calls := [CallErase 1; CallInsert 1] in
  contents 64 (run 64 calls (new_set 64 unset)) = []
  ∧ ref_run calls = [1%Z].
Proof. split; reflexivity. Qed.

(** C2 (fails on the code).  Last-write-wins: [erase(v); insert(v)] on a
    store without [v] should yield [v] present.  On a fresh container the
    store stays empty for every [v], although the last entry of the log on
    [v] is an [InsertItem]. *)
Theorem erase_then_insert_stays_absent (unset : nat → BufferItem) (val : Z) :
  contents 64 (insert 64 val (erase 64 val (new_set 64 unset))) = []
  ∧ last (kinds_on val (log (insert 64 val (erase 64 val (new_set 64 unset)))))
    = Some InsertItem.
Proof.
  pose proof (wf_new_set 64 unset) as Hwf.
  destruct (erase_spec 64 val _ ltac:(lia) Hwf) as (Hwf1 & Hl1 & Hi1).
  destruct (insert_spec 64 val _ ltac:(lia) Hwf1) as (Hwf2 & Hl2 & Hi2).
  change (buffer_ops (new_set 64 unset) =? 64) with false in Hl1, Hi1.
  change (buffer_ops (erase 64 val (new_set 64 unset)) =? 64) with false in Hl2, Hi2.
  split.
  - unfold contents, begin_. cbn [snd].
    rewrite (opposite_pair_cancels 64 (new_set 64 unset) val DeleteItem InsertItem
               (erase 64 val (new_set 64 unset))); try done.
    + cbn. lia.
    + cbn. by intros ?%elem_of_nil.
  - rewrite Hl2, Hl1. cbn. unfold kinds_on. cbn.
    by rewrite !decide_True by done.
Qed.

(** C3 (fails on the code).  [lower_bound], [upper_bound] and [equal_range]
    should see pending operations.  They read [items] without calling
    [make_ready]: after [insert(1)] on a fresh container they answer for the
    empty store (position 0), while the reconciled store [[1]] gives
    position 1 for the value 2. *)
Theorem bounds_skip_reconciliation (unset : nat → BufferItem) :
  let s := insert 64 1 (new_set 64 unset) in
  lower_bound 2 s = 0 ∧ upper_bound 2 s = 0 ∧ equal_range 2 s = (0, 0)
  ∧ contents 64 s = [1%Z]
  ∧ Std.lower_bound (contents 64 s) 2 = 1
  ∧ Std.upper_bound (contents 64 s) 2 = 1
  ∧ Std.equal_range (contents 64 s) 2 = (1, 1).
Proof. repeat split; reflexivity. Qed.

Lemma find_loop_stuck fuel : find_loop fuel [1%Z] 2 0 1 = None.
Proof. induction fuel as [|fuel IH]; [done|]. cbn. exact IH. Qed.

(** C4 (fails on the code).  [find] should terminate with the end marker
    for an absent value.  On the store [[1]] the search for 2 sets
    [beg = med = 0] in every iteration: no amount of fuel makes the loop
    return. *)
Theorem find_absent_never_returns (unset : nat → BufferItem) (fuel : nat) :
  fst (find 64 fuel 2 (insert 64 1 (new_set 64 unset))) = None.
Proof.
  unfold find, size.
  set (s := make_ready 64 (make_ready 64 (insert 64 1 (new_set 64 unset)))).
  assert (items s = [1%Z]) as Hs by reflexivity.
  cbn [fst]. rewrite Hs. apply find_loop_stuck.
Qed.

(** ** Properties of the reconciliation pass *)

(** C5.  Ordering invariant: if the store is strictly increasing before a
    reconciliation, it is strictly increasing, hence duplicate-free, after
    it, whatever the log holds. *)
Theorem make_ready_strictly_increasing (BufferSize : nat) (s : contiguous_set) :
  wf BufferSize s →
  strictly_increasing (items s) →
  strictly_increasing (items (make_ready BufferSize s))
  ∧ NoDup (items (make_ready BufferSize s)).
Proof.
  intros Hwf Hs. rewrite make_ready_items by done.
  pose proof (reconcile_strictly_increasing _ (log s) Hs) as Hr.
  split; [done|]. clear -Hr. unfold strictly_increasing in Hr.
  induction Hr as [|x l Hl IH Hx]; constructor; [|done].
  intros Hin. rewrite Forall_forall in Hx. apply Hx in Hin. lia.
Qed.

Lemma make_ready_strictly_increasing_witness :
  wf 4 batch_example ∧ strictly_increasing (items batch_example)
  ∧ strictly_increasing (items (make_ready 4 batch_example))
  ∧ NoDup (items (make_ready 4 batch_example)).
Proof.
  assert (wf 4 batch_example) as Hwf by (split; cbn; lia).
  assert (strictly_increasing (items batch_example)) as Hs
    by (repeat constructor; reflexivity).
  split; [exact Hwf|]. split; [exact Hs|].
  exact (make_ready_strictly_increasing 4 batch_example Hwf Hs).
Defined.

(** C6.  The log never holds more than [BufferSize] entries: in every state
    reached from a fresh container, [buffer_ops] is the length of the log and
    at most [BufferSize]; [insert] and [erase] append exactly one entry,
    after reconciling (which empties the log) when the log was full, and stay
    within the bound. *)
Theorem log_bounded_by_BufferSize (BufferSize : nat) (unset : nat → BufferItem)
    (calls : list call) (val : Z) :
  0 < BufferSize →
  let s := run BufferSize calls (new_set BufferSize unset) in
  let room := if buffer_ops s =? BufferSize then [] else log s in
  length (log s) = buffer_ops s ∧ buffer_ops s ≤ BufferSize
  ∧ log (insert BufferSize val s) = room ++ [mkBufferItem InsertItem val]
  ∧ log (erase BufferSize val s) = room ++ [mkBufferItem DeleteItem val]
  ∧ buffer_ops (insert BufferSize val s) ≤ BufferSize
  ∧ buffer_ops (erase BufferSize val s) ≤ BufferSize
  ∧ items (insert BufferSize val s) = items (erase BufferSize val s)
  ∧ items (insert BufferSize val s) =
      (if buffer_ops s =? BufferSize then items (make_ready BufferSize s)
       else items s).
Proof.
  intros HC s room.
  assert (wf BufferSize s) as Hwf by (apply wf_run; [done|apply wf_new_set]).
  destruct (insert_spec BufferSize val s HC Hwf) as (Hwi & Hli & Hii).
  destruct (erase_spec BufferSize val s HC Hwf) as (Hwe & Hle & Hie).
  split_and!;
    [by apply (length_log BufferSize)|apply Hwf|done|done|apply Hwi|apply Hwe
    | |done].
  by rewrite Hii, Hie.
Qed.

Lemma log_bounded_by_BufferSize_witness :
  0 < 2
  ∧ let s := run 2 [CallInsert 5; CallErase 7] (new_set 2 (λ _, inhabitant)) in
    let room := if buffer_ops s =? 2 then [] else log s in
    length (log s) = buffer_ops s ∧ buffer_ops s ≤ 2
    ∧ log (insert 2 9 s) = room ++ [mkBufferItem InsertItem 9]
    ∧ log (erase 2 9 s) = room ++ [mkBufferItem DeleteItem 9]
    ∧ buffer_ops (insert 2 9 s) ≤ 2
    ∧ buffer_ops (erase 2 9 s) ≤ 2
    ∧ items (insert 2 9 s) = items (erase 2 9 s)
    ∧ items (insert 2 9 s) =
        (if buffer_ops s =? 2 then items (make_ready 2 s) else items s).
Proof.
  assert (0 < 2) as H2 by lia.
  split; [exact H2|].
  exact (log_bounded_by_BufferSize 2 (λ _, inhabitant)
           [CallInsert 5; CallErase 7] 9 H2).
Defined.

(** C7.  Cancellation within a batch: for a value [val] that is neither in
    the store nor pending, a batch that records [insert(val)] and later
    [erase(val)], among any operations on other values that fit into the
    log with them, leaves [val] absent after reconciliation and the store
    otherwise as the batch without the two calls would have left it; with
    no other operation pending or recorded, the store is unchanged. *)
Theorem insert_then_erase_cancels (BufferSize : nat) (s : contiguous_set)
    (val : Z) (mid post : list call) :
  wf BufferSize s →
  buffer_ops s + length mid + length post + 2 ≤ BufferSize →
  val ∉ items s →
  val ∉ value <$> log s →
  Forall (writes_other val) (mid ++ post) →
  let batch := [CallInsert val] ++ mid ++ [CallErase val] ++ post in
  (val ∉ contents BufferSize (run BufferSize batch s))
  ∧ contents BufferSize (run BufferSize batch s)
    = contents BufferSize (run BufferSize (mid ++ post) s)
  ∧ (mid ++ post = [] → buffer_ops s = 0 →
     contents BufferSize (run BufferSize batch s) = items s).
Proof.
  intros Hwf Hroom Hitems Hlog Hother batch.
  pose proof Hother as [Hmid Hpost]%Forall_app.
  pose proof (omap_call_entry_other val mid Hmid) as Hem.
  pose proof (omap_call_entry_other val post Hpost) as Hep.
  destruct (run_within_batch BufferSize batch s Hwf) as (Hwf1 & Hl1 & Hi1).
  { unfold batch. repeat (apply Forall_app; split);
      try (by eapply writes_other_no_read); by repeat constructor. }
  { unfold batch. rewrite !length_app. cbn. lia. }
  destruct (run_within_batch BufferSize (mid ++ post) s Hwf) as (Hwf2 & Hl2 & Hi2).
  { by eapply writes_other_no_read. }
  { rewrite length_app. lia. }
  assert (omap call_entry batch
          = mkBufferItem InsertItem val :: omap call_entry mid
            ++ mkBufferItem DeleteItem val :: omap call_entry post) as Hbatch
    by (unfold batch; by rewrite !omap_app).
  rewrite Hbatch in Hl1. rewrite omap_app in Hl2. clear Hbatch.
  set (em := omap call_entry mid) in *. set (ep := omap call_entry post) in *.
  assert (net_ops (items s) [] (log (run BufferSize batch s))
          = net_ops (items s) [] (log (run BufferSize (mid ++ post) s))) as Hnet.
  { rewrite (net_ops_filter _ val), Hl1, Hl2.
    - rewrite filter_app, filter_cons_False by (cbn; by intros ?).
      rewrite filter_app, filter_cons_False by (cbn; by intros ?).
      by rewrite !filter_other_id.
    - right. exists InsertItem, DeleteItem. rewrite Hl1.
      rewrite kinds_on_app, kinds_on_cons, decide_True by done.
      rewrite kinds_on_app, kinds_on_cons, decide_True by done.
      rewrite !kinds_on_other by done. done. }
  assert (contents BufferSize (run BufferSize batch s)
          = contents BufferSize (run BufferSize (mid ++ post) s)) as Heq.
  { rewrite !contents_make_ready, !make_ready_items by done.
    unfold reconcile. by rewrite Hi1, Hi2, Hnet. }
  split_and!; [|done|].
  - rewrite Heq, contents_make_ready, make_ready_items, Hi2, Hl2 by done.
    intros [?|Hin]%elem_of_reconcile; [done|].
    apply list_elem_of_fmap in Hin as (b & -> & Hb).
    apply net_ops_elem_of in Hb as [Hb _].
    apply (list_elem_of_fmap_2 value) in Hb.
    rewrite !fmap_app, !elem_of_app in Hb. tauto.
  - intros Hnil H0. rewrite Heq, Hnil. cbn.
    rewrite contents_make_ready. unfold make_ready. by rewrite H0.
Qed.

Lemma insert_then_erase_cancels_witness :
  wf 4 ready_example
  ∧ buffer_ops ready_example + length [CallInsert 9] + length [CallErase 1] + 2 ≤ 4
  ∧ (5%Z ∉ items ready_example) ∧ (5%Z ∉ value <$> log ready_example)
  ∧ Forall (writes_other 5) ([CallInsert 9] ++ [CallErase 1])
  ∧ let batch := [CallInsert 5] ++ [CallInsert 9] ++ [CallErase 5] ++ [CallErase 1] in
    (5%Z ∉ contents 4 (run 4 batch ready_example))
    ∧ contents 4 (run 4 batch ready_example)
      = contents 4 (run 4 ([CallInsert 9] ++ [CallErase 1]) ready_example)
    ∧ ([CallInsert 9] ++ [CallErase 1] = [] → buffer_ops ready_example = 0 →
       contents 4 (run 4 batch ready_example) = items ready_example).
Proof.
  assert (wf 4 ready_example) as Hwf by (split; cbn; lia).
  assert (buffer_ops ready_example + length [CallInsert 9]
          + length [CallErase 1] + 2 ≤ 4) as Hroom by (cbn; lia).
  assert (5%Z ∉ items ready_example) as Hi
    by (apply (bool_decide_unpack _); vm_compute; exact I).
  assert (5%Z ∉ value <$> log ready_example) as Hl
    by (apply (bool_decide_unpack _); vm_compute; exact I).
  assert (Forall (writes_other 5) ([CallInsert 9] ++ [CallErase 1])) as Ho
    by (repeat constructor; cbn; lia).
  split_and!; [exact Hwf|exact Hroom|exact Hi|exact Hl|exact Ho|].
  exact (insert_then_erase_cancels 4 ready_example 5 [CallInsert 9] [CallErase 1]
           Hwf Hroom Hi Hl Ho).
Defined.

(** C9.  When the first and the last log entry on [val] are of different
    kinds, reconciliation emits no net operation on [val], and [val] is in
    the store afterwards exactly if it was there before. *)
Theorem conflicting_kinds_emit_nothing (BufferSize : nat) (s : contiguous_set)
    (val : Z) (first_kind last_kind : BufferOperation) :
  wf BufferSize s →
  head (kinds_on val (log s)) = Some first_kind →
  last (kinds_on val (log s)) = Some last_kind →
  first_kind ≠ last_kind →
  (val ∉ value <$> net_operations BufferSize s)
  ∧ (val ∈ items (make_ready BufferSize s) ↔ val ∈ items s).
Proof.
  intros Hwf Hhd Hlast Hne.
  assert (val ∉ value <$> net_ops (items s) [] (log s)) as Hnet
    by (by eapply net_ops_conflicting).
  rewrite net_operations_spec, make_ready_items by done.
  split; [done|]. split.
  - by intros [?|?]%elem_of_reconcile.
  - intros Hin. by apply reconcile_keeps.
Qed.

Lemma conflicting_kinds_emit_nothing_witness :
  wf 4 conflict_example
  ∧ head (kinds_on 2 (log conflict_example)) = Some InsertItem
  ∧ last (kinds_on 2 (log conflict_example)) = Some DeleteItem
  ∧ InsertItem ≠ DeleteItem
  ∧ (2%Z ∉ value <$> net_operations 4 conflict_example)
  ∧ (2%Z ∈ items (make_ready 4 conflict_example) ↔ 2%Z ∈ items conflict_example).
Proof.
  assert (wf 4 conflict_example) as Hwf by (split; cbn; lia).
  assert (head (kinds_on 2 (log conflict_example)) = Some InsertItem) as Hhd
    by reflexivity.
  assert (last (kinds_on 2 (log conflict_example)) = Some DeleteItem) as Hlast
    by reflexivity.
  assert (InsertItem ≠ DeleteItem) as Hne by discriminate.
  split_and!; [exact Hwf|exact Hhd|exact Hlast|exact Hne|..];
    apply (conflicting_kinds_emit_nothing 4 conflict_example 2
             InsertItem DeleteItem Hwf Hhd Hlast Hne).
Defined.

(** ** The copy constructor *)

Lemma copy_construct_eq (BufferSize : nat) (raw other : contiguous_set) :
  copy_construct BufferSize raw other =
    match items (make_ready BufferSize other) with
    | [] => Some ({| op_buffer := op_buffer raw; buffer_ops := buffer_ops raw;
                     state := state raw; items := [] |},
                  make_ready BufferSize other)
    | _ :: _ => None
    end.
Proof. unfold copy_construct. by destruct (items (make_ready _ _)). Qed.

(** C8 (fails on the code).  Copy construction should leave the copy with
    an empty store whatever the source holds.  The constructor reconciles
    the source and then copies its elements into the new vector, which it
    has resized to its own size, zero, instead of the source's.  For a
    source whose reconciled store is [[1]], [std::copy] therefore stores one
    element through [begin()] of an empty vector: whatever the new object's
    storage held, no copy results, with an empty store or any other.  Only
    for a source whose reconciled store is empty does the copy have an empty
    store. *)
Theorem copy_of_nonempty_source_fails (raw : contiguous_set)
    (unset : nat → BufferItem) :
  items (make_ready 64 (insert 64 1 (new_set 64 unset))) = [1%Z]
  ∧ Std.resize (@nil Z) (length (@nil Z)) = []
  ∧ Std.copy [1%Z] [] 0 = None
  ∧ copy_construct 64 raw (insert 64 1 (new_set 64 unset)) = None
  ∧ (∃ c other',
       copy_construct 64 raw (new_set 64 unset) = Some (c, other')
       ∧ items c = []).
Proof.
  assert (items (make_ready 64 (insert 64 1 (new_set 64 unset))) = [1%Z])
    as Hi by reflexivity.
  split_and!; [done|done|done| |].
  - by rewrite copy_construct_eq, Hi.
  - eexists _, _. by rewrite copy_construct_eq.
Qed.

(** C10.  The copy constructor sets only the item vector: [op_buffer],
    [buffer_ops] and [state] of the copy are whatever its storage held.  So
    the bound [buffer_ops ≤ BufferSize] need not hold for a copy, and what
    the first read or [insert] on it yields depends on that storage. *)
Theorem copy_construct_keeps_raw_fields (BufferSize : nat)
    (raw other : contiguous_set) (unset : nat → BufferItem) :
  match copy_construct BufferSize raw other with
  | Some (c, _) =>
      op_buffer c = op_buffer raw ∧ buffer_ops c = buffer_ops raw
      ∧ state c = state raw ∧ items c = []
  | None => items (make_ready BufferSize other) ≠ []
  end
  ∧ (∃ c other',
       copy_construct BufferSize (raw_overfull BufferSize)
         (new_set BufferSize unset) = Some (c, other')
       ∧ ¬ wf BufferSize c)
  ∧ (∃ c1 c2 other',
       copy_construct 64 (new_set 64 unset) (new_set 64 unset) = Some (c1, other')
       ∧ copy_construct 64 raw_one_pending (new_set 64 unset) = Some (c2, other')
       ∧ contents 64 (insert 64 1 c1) = [1%Z]
       ∧ contents 64 (insert 64 1 c2) = [1%Z; 7%Z]
       ∧ contents 64 c1 = [] ∧ contents 64 c2 = [7%Z]).
Proof.
  split_and!.
  - rewrite copy_construct_eq.
    by destruct (items (make_ready BufferSize other)) eqn:Hi.
  - eexists _, _. split; [reflexivity|]. intros [_ Hops]. cbn in Hops. lia.
  - eexists _, _, _. split_and!; reflexivity.
Qed.

(** ** Further properties of the class *)

Lemma make_ready_again BufferSize s :
  items (make_ready BufferSize (make_ready BufferSize s))
    = items (make_ready BufferSize s).
Proof.
  unfold make_ready at 1. by rewrite make_ready_buffer_ops.
Qed.

(** X1.  The demonstration entry point prints [0, 1, ..., 19]: inserting
    [0 .. 19] in ascending order with no read in between and then iterating
    yields each value once, in ascending order. *)
Theorem main_prints_ascending (unset : nat → BufferItem) :
  main unset = Z.of_nat <$> seq 0 20.
Proof. reflexivity. Qed.

(** X2.  When the search loop of [find] is left.  On a well-formed
    container with a sorted store the loop reaches a [return] statement
    (within as many iterations as the reconciled store has elements) when
    the value is stored or is below every stored element, in particular on
    an empty store; for every other value the loop is never left, because
    [beg = med] stops making progress once [end - beg] is 1. *)
Theorem find_loop_left_iff (BufferSize : nat) (s : contiguous_set) (val : Z) :
  wf BufferSize s →
  strictly_increasing (items s) →
  let c := contents BufferSize s in
  (val ∈ c ∨ Forall (λ x, (val < x)%Z) c →
     ∀ fuel, length c < fuel → is_Some (fst (find BufferSize fuel val s)))
  ∧ (¬ (val ∈ c ∨ Forall (λ x, (val < x)%Z) c) →
     ∀ fuel, fst (find BufferSize fuel val s) = None).
Proof.
  intros Hwf Hs c.
  assert (strictly_increasing c) as Hc.
  { unfold c, contents, begin_. cbn [snd].
    rewrite make_ready_items by done. by apply reconcile_strictly_increasing. }
  assert (∀ fuel, fst (find BufferSize fuel val s)
                  = find_loop fuel c val 0 (length c)) as Hfind.
  { intros fuel. unfold find, size. cbn [fst]. by rewrite make_ready_again. }
  split.
  - intros [Hin|Hall] fuel Hfuel; rewrite Hfind.
    + apply list_elem_of_lookup in Hin as [i Hi]. exists i.
      apply find_loop_present; [done..| |done|lia].
      split; [lia|]. by eapply lookup_lt_Some.
    + exists (length c). by apply find_loop_below.
  - intros Hnot fuel. rewrite Hfind.
    assert (val ∉ c) as Habs by tauto.
    assert (¬ Forall (λ x, (val < x)%Z) c) as Hex by tauto.
    apply not_Forall_Exists in Hex; [|apply _].
    apply Exists_exists in Hex as (x & Hx & Hle).
    unfold compose in Hle. cbv beta in Hle.
    assert (x < val)%Z as Hlt.
    { destruct (decide (x = val)) as [->|]; [done|lia]. }
    apply list_elem_of_lookup in Hx as [j Hj].
    assert (0 < length c) as Hlen by (apply lookup_lt_Some in Hj; lia).
    apply find_loop_never_returns; [done..|].
    destruct j as [|j].
    + by rewrite (list_lookup_total_correct _ _ _ Hj).
    + assert (c !! 0 = Some (c !!! 0)) as H0
        by (by apply list_lookup_lookup_total_lt).
      pose proof (strictly_increasing_lookup c 0 (S j) _ _ Hc ltac:(lia) H0 Hj).
      lia.
Qed.

Lemma find_loop_left_iff_witness :
  wf 4 batch_example ∧ strictly_increasing (items batch_example)
  ∧ let c := contents 4 batch_example in
    (5%Z ∈ c ∨ Forall (λ x, (5 < x)%Z) c →
       ∀ fuel, length c < fuel → is_Some (fst (find 4 fuel 5 batch_example)))
    ∧ (¬ (5%Z ∈ c ∨ Forall (λ x, (5 < x)%Z) c) →
       ∀ fuel, fst (find 4 fuel 5 batch_example) = None).
Proof.
  assert (wf 4 batch_example) as Hwf by (split; cbn; lia).
  assert (strictly_increasing (items batch_example)) as Hs
    by (repeat constructor; reflexivity).
  split; [exact Hwf|]. split; [exact Hs|].
  exact (find_loop_left_iff 4 batch_example 5 Hwf Hs).
Defined.

(** X3.  Membership after a reconciliation of a sorted store: a value whose
    first and last log entries are both inserts is present, one whose first
    and last entries are both deletes is absent, and every other value,
    mentioned in the log or not, is present exactly if it was before. *)
Theorem make_ready_membership (BufferSize : nat) (s : contiguous_set) (x : Z) :
  wf BufferSize s →
  strictly_increasing (items s) →
  x ∈ items (make_ready BufferSize s) ↔
    match head (kinds_on x (log s)), last (kinds_on x (log s)) with
    | Some InsertItem, Some InsertItem => True
    | Some DeleteItem, Some DeleteItem => False
    | _, _ => x ∈ items s
    end.
Proof.
  intros Hwf Hs. rewrite make_ready_items by done.
  by apply elem_of_reconcile_iff.
Qed.

Lemma make_ready_membership_witness :
  wf 4 batch_example ∧ strictly_increasing (items batch_example)
  ∧ (3%Z ∈ items (make_ready 4 batch_example) ↔
       match head (kinds_on 3 (log batch_example)),
             last (kinds_on 3 (log batch_example)) with
       | Some InsertItem, Some InsertItem => True
       | Some DeleteItem, Some DeleteItem => False
       | _, _ => 3%Z ∈ items batch_example
       end).
Proof.
  assert (wf 4 batch_example) as Hwf by (split; cbn; lia).
  assert (strictly_increasing (items batch_example)) as Hs
    by (repeat constructor; reflexivity).
  split; [exact Hwf|]. split; [exact Hs|].
  exact (make_ready_membership 4 batch_example 3 Hwf Hs).
Defined.

(** X4.  If in the pending log the first and the last entry on every value
    have the same kind, reconciling a sorted store gives what applying the
    log entries one at a time to a reference ordered set gives. *)
Theorem make_ready_conflict_free (BufferSize : nat) (s : contiguous_set) :
  wf BufferSize s →
  strictly_increasing (items s) →
  (∀ x, head (kinds_on x (log s)) = last (kinds_on x (log s))) →
  items (make_ready BufferSize s) = foldl ref_apply_entry (items s) (log s).
Proof.
  intros Hwf Hs Hfree. rewrite make_ready_items by done.
  by apply reconcile_conflict_free.
Qed.

Lemma make_ready_conflict_free_witness :
  wf 4 batch_example ∧ strictly_increasing (items batch_example)
  ∧ (∀ x, head (kinds_on x (log batch_example))
          = last (kinds_on x (log batch_example)))
  ∧ items (make_ready 4 batch_example)
    = foldl ref_apply_entry (items batch_example) (log batch_example).
Proof.
  assert (wf 4 batch_example) as Hwf by (split; cbn; lia).
  assert (strictly_increasing (items batch_example)) as Hs
    by (repeat constructor; reflexivity).
  assert (∀ x, head (kinds_on x (log batch_example))
               = last (kinds_on x (log batch_example))) as Hfree.
  { intros x. change (log batch_example) with
      [mkBufferItem InsertItem 3; mkBufferItem DeleteItem 1;
       mkBufferItem InsertItem 3; mkBufferItem DeleteItem 9].
    rewrite !kinds_on_cons. cbn [value operation].
    repeat case_decide; first [done|lia]. }
  split; [exact Hwf|]. split; [exact Hs|]. split; [exact Hfree|].
  exact (make_ready_conflict_free 4 batch_example Hwf Hs Hfree).
Defined.

(** X5.  Set equivalence for call sequences in which no value is both
    inserted and erased: whatever the buffer size and wherever the log is
    flushed, the contents observed at the end equal those of the reference
    ordered set after the same calls. *)
Theorem set_equivalence_unmixed (BufferSize : nat) (unset : nat → BufferItem)
    (calls : list call) :
  0 < BufferSize →
  unmixed calls →
  contents BufferSize (run BufferSize calls (new_set BufferSize unset))
    = ref_run calls.
Proof. intros HC Hcalls. by apply run_unmixed. Qed.

Lemma set_equivalence_unmixed_witness :
  0 < 2
  ∧ unmixed [CallInsert 5; CallInsert 1; CallErase 7; CallInsert 5; CallBegin;
             CallInsert 3; CallErase 7]
  ∧ contents 2
      (run 2 [CallInsert 5; CallInsert 1; CallErase 7; CallInsert 5; CallBegin;
              CallInsert 3; CallErase 7] (new_set 2 (λ _, inhabitant)))
    = ref_run [CallInsert 5; CallInsert 1; CallErase 7; CallInsert 5; CallBegin;
               CallInsert 3; CallErase 7].
Proof.
  assert (0 < 2) as H2 by lia.
  assert (unmixed [CallInsert 5; CallInsert 1; CallErase 7; CallInsert 5;
                   CallBegin; CallInsert 3; CallErase 7]) as Hu
    by (apply (bool_decide_unpack _); vm_compute; exact I).
  split; [exact H2|]. split; [exact Hu|].
  exact (set_equivalence_unmixed 2 (λ _, inhabitant) _ H2 Hu).
Defined.

(** ** The order of log entries and the scratch buffer *)

(** X8.  [BufferItem::operator<] is a strict total order on log entries:
    irreflexive, asymmetric, transitive, and any two different entries are
    comparable; every [InsertItem] entry is below every [DeleteItem]
    entry. *)
Theorem BufferItem_lt_strict_total_order (a b c : BufferItem) :
  BufferItem_lt a a = false
  ∧ (BufferItem_lt a b = true → BufferItem_lt b a = false)
  ∧ (BufferItem_lt a b = true → BufferItem_lt b c = true →
     BufferItem_lt a c = true)
  ∧ (a = b ∨ BufferItem_lt a b = true ∨ BufferItem_lt b a = true)
  ∧ (operation a = InsertItem → operation b = DeleteItem →
     BufferItem_lt a b = true ∧ BufferItem_lt b a = false).
Proof.
  destruct a as [[] va], b as [[] vb], c as [[] vc]; unfold BufferItem_lt;
    cbn [operation value BufferOperation_rank];
    repeat case_bool_decide; try done; cbn [Nat.ltb Nat.leb].
  all: rewrite ?Z.ltb_irrefl; split_and!; try done;
    rewrite ?Z.ltb_lt, ?Z.ltb_ge; try lia.
  all: destruct (Z.lt_total va vb) as [?|[->|?]]; auto.
Qed.

Lemma length_net_ops items l : ∀ seen,
  length (net_ops items seen l) ≤ length l.
Proof.
  induction l as [|x l IH]; intros seen; cbn; [lia|].
  destruct (decide (value x ∈ seen)); [specialize (IH seen); lia|].
  rewrite length_app. specialize (IH (value x :: seen)).
  destruct (emitted _ _ _); cbn; lia.
Qed.

(** X9.  The net operations written to [optimised_op_buffer] fit into
    it: there are at most [buffer_ops], hence at most [BufferSize], of them.
    They are log entries on pairwise different values, and each one changes
    the store: an emitted insert is of a value not in [items], an emitted
    delete of a value in [items]. *)
Theorem net_operations_fit_scratch (BufferSize : nat) (s : contiguous_set) :
  wf BufferSize s →
  length (net_operations BufferSize s) ≤ buffer_ops s
  ∧ length (net_operations BufferSize s) ≤ BufferSize
  ∧ NoDup (value <$> net_operations BufferSize s)
  ∧ (∀ b, b ∈ net_operations BufferSize s → b ∈ log s)
  ∧ (∀ b, b ∈ net_operations BufferSize s →
       Std.binary_search (items s) (value b)
       = bool_decide (operation b = DeleteItem)).
Proof.
  intros Hwf. rewrite net_operations_spec by done.
  pose proof (length_net_ops (items s) (log s) []) as Hlen.
  rewrite (length_log BufferSize) in Hlen by done.
  split_and!; [done|destruct Hwf; lia|apply net_ops_NoDup| |].
  - by intros b [? _]%net_ops_elem_of.
  - intros b. apply net_ops_emitted.
Qed.

Lemma net_operations_fit_scratch_witness :
  wf 4 batch_example
  ∧ length (net_operations 4 batch_example) ≤ buffer_ops batch_example
  ∧ length (net_operations 4 batch_example) ≤ 4
  ∧ NoDup (value <$> net_operations 4 batch_example)
  ∧ (∀ b, b ∈ net_operations 4 batch_example → b ∈ log batch_example)
  ∧ (∀ b, b ∈ net_operations 4 batch_example →
       Std.binary_search (items batch_example) (value b)
       = bool_decide (operation b = DeleteItem)).
Proof.
  assert (wf 4 batch_example) as Hwf by (split; cbn; lia).
  split; [exact Hwf|]. exact (net_operations_fit_scratch 4 batch_example Hwf).
Defined.

(** ** Writes *)

Lemma log_reconciled s : buffer_ops s = 0 → log s = [].
Proof. intros H. unfold log. by rewrite H. Qed.

Lemma run_unmixed_from BufferSize calls s :
  0 < BufferSize → unmixed calls →
  wf BufferSize s → buffer_ops s = 0 → strictly_increasing (items s) →
  contents BufferSize (run BufferSize calls s) = foldl ref_apply (items s) calls.
Proof.
  intros HC Hcalls Hwf H0 Hs.
  pose proof (inv_run BufferSize calls HC Hcalls calls s (items s)
                (reflexivity _)) as Hinv.
  cbv beta in Hinv. rewrite (log_reconciled s H0) in Hinv.
  destruct Hinv as (Hwf' & Hs' & Hlog' & Hr');
    [by split_and!; [..|by intros b ?%elem_of_nil|]|].
  pose proof (inv_make_ready BufferSize calls Hcalls _ _
                (conj Hwf' (conj Hs' (conj Hlog' Hr')))) as Hr.
  cbv beta in Hr. destruct Hr as (_ & _ & _ & Hr).
  by rewrite log_make_ready in Hr.
Qed.

Lemma insert_range_run BufferSize vals : ∀ s,
  insert_range BufferSize vals s = run BufferSize (CallInsert <$> vals) s.
Proof.
  unfold insert_range, run.
  induction vals as [|v vals IH]; intros s; [done|]. cbn. apply IH.
Qed.

Lemma unmixed_inserts vals : unmixed (CallInsert <$> vals).
Proof.
  unfold unmixed.
  replace (erased (CallInsert <$> vals)) with (@nil Z).
  - apply Forall_forall. by intros x _ ?%elem_of_nil.
  - unfold erased. induction vals as [|v vals IH]; [done|]. by cbn.
Qed.

Lemma foldl_ref_inserts vals : ∀ l,
  strictly_increasing l →
  strictly_increasing (foldl ref_apply l (CallInsert <$> vals))
  ∧ ∀ x, x ∈ foldl ref_apply l (CallInsert <$> vals) ↔ x ∈ l ∨ x ∈ vals.
Proof.
  induction vals as [|v vals IH]; intros l Hl.
  - split; [done|]. intros x. cbn. split; [by left|].
    by intros [?|?%elem_of_nil].
  - cbn. destruct (IH (ref_insert v l)) as [Hs Hm];
      [by apply ref_insert_strictly_increasing|].
    split; [done|]. intros x.
    rewrite Hm, elem_of_ref_insert, elem_of_cons. tauto.
Qed.

(** X10.  Range insert.  On a reconciled container with a strictly
    increasing store, [insert(first, last)] followed by a read yields a
    strictly increasing sequence that holds exactly the stored values and
    the values of the range, however many flushes the range causes and
    whatever duplicates it has. *)
Theorem insert_range_contents (BufferSize : nat) (s : contiguous_set)
    (vals : list Z) :
  0 < BufferSize →
  wf BufferSize s →
  buffer_ops s = 0 →
  strictly_increasing (items s) →
  let c := contents BufferSize (insert_range BufferSize vals s) in
  strictly_increasing c ∧ ∀ x, x ∈ c ↔ x ∈ items s ∨ x ∈ vals.
Proof.
  intros HC Hwf H0 Hs c. unfold c.
  rewrite insert_range_run, run_unmixed_from;
    [|done|apply unmixed_inserts|done..].
  by apply foldl_ref_inserts.
Qed.

Lemma insert_range_contents_witness :
  0 < 4 ∧ wf 4 ready_example ∧ buffer_ops ready_example = 0
  ∧ strictly_increasing (items ready_example)
  ∧ let c := contents 4 (insert_range 4 [9; 2; 7; 9; 0; 3; 5]%Z ready_example) in
    strictly_increasing c
    ∧ ∀ x, x ∈ c ↔ x ∈ items ready_example ∨ x ∈ [9; 2; 7; 9; 0; 3; 5]%Z.
Proof.
  assert (0 < 4) as H4 by lia.
  assert (wf 4 ready_example) as Hwf by (split; cbn; lia).
  assert (buffer_ops ready_example = 0) as H0 by reflexivity.
  assert (strictly_increasing (items ready_example)) as Hs
    by (repeat constructor; reflexivity).
  split_and!; [exact H4|exact Hwf|exact H0|exact Hs|].
  exact (insert_range_contents 4 ready_example [9; 2; 7; 9; 0; 3; 5]%Z
           H4 Hwf H0 Hs).
Defined.

(** One write: [s'] is [s] after recording the entry [b]. *)
Section one_write.
Context (BufferSize : nat) (s s' : contiguous_set) (b : BufferItem).
Hypothesis Hwf : wf BufferSize s.
Hypothesis Hs : strictly_increasing (items s).
Hypothesis Hwf' : wf BufferSize s'.
Hypothesis Hlog' :
  log s' = (if buffer_ops s =? BufferSize then [] else log s) ++ [b].
Hypothesis Hitems' :
  items s' = (if buffer_ops s =? BufferSize
              then items (make_ready BufferSize s) else items s).

Lemma contents_strictly_increasing :
  strictly_increasing (contents BufferSize s).
Proof.
  rewrite contents_make_ready, make_ready_items by done.
  by apply reconcile_strictly_increasing.
Qed.

Lemma record_strictly_increasing : strictly_increasing (items s').
Proof.
  rewrite Hitems'. destruct (buffer_ops s =? BufferSize); [|done].
  apply contents_strictly_increasing.
Qed.

(** A write recorded into an empty log takes effect exactly. *)
Lemma record_into_empty_log :
  buffer_ops s = 0 ∨ buffer_ops s = BufferSize →
  contents BufferSize s'
    = ref_apply_entry (contents BufferSize s) b.
Proof.
  intros Hempty.
  assert (log s' = [b] ∧ items s' = contents BufferSize s) as [Hl Hi].
  { rewrite Hlog', Hitems'.
    destruct (Nat.eqb_spec (buffer_ops s) BufferSize) as [|Hne]; [done|].
    destruct Hempty as [H0|]; [|done].
    rewrite (log_reconciled s H0). split; [done|].
    rewrite contents_make_ready. unfold make_ready. by rewrite H0. }
  rewrite contents_make_ready, make_ready_items, Hl, Hi by done.
  rewrite reconcile_conflict_free; [done|apply contents_strictly_increasing|].
  intros x. rewrite kinds_on_cons. by destruct (decide _).
Qed.

Lemma elem_of_contents_record x :
  x ∈ contents BufferSize s' ↔
    if buffer_ops s =? BufferSize then
      if decide (value b = x) then operation b = InsertItem
      else x ∈ contents BufferSize s
    else
      match head (kinds_on x (log s ++ [b])),
            last (kinds_on x (log s ++ [b])) with
      | Some InsertItem, Some InsertItem => True
      | Some DeleteItem, Some DeleteItem => False
      | _, _ => x ∈ items s
      end.
Proof.
  rewrite contents_make_ready, make_ready_items by done.
  rewrite elem_of_reconcile_iff by apply record_strictly_increasing.
  rewrite Hlog', Hitems'.
  destruct (buffer_ops s =? BufferSize); [|done].
  cbn [app]. rewrite kinds_on_cons.
  destruct (decide (value b = x)); [|done]. cbn.
  destruct (operation b); split; done.
Qed.

Lemma elem_of_contents_before x :
  x ∈ contents BufferSize s ↔
    match head (kinds_on x (log s)), last (kinds_on x (log s)) with
    | Some InsertItem, Some InsertItem => True
    | Some DeleteItem, Some DeleteItem => False
    | _, _ => x ∈ items s
    end.
Proof.
  rewrite contents_make_ready, make_ready_items by done.
  by apply elem_of_reconcile_iff.
Qed.

(** An insert of a value that is in the contents, and an erase of one
    that is not, change nothing. *)
Lemma record_absorbed :
  (operation b = InsertItem ↔ value b ∈ contents BufferSize s) →
  contents BufferSize s' = contents BufferSize s.
Proof.
  intros Hb. apply strictly_increasing_ext.
  - rewrite contents_make_ready, make_ready_items by done.
    apply reconcile_strictly_increasing, record_strictly_increasing.
  - apply contents_strictly_increasing.
  - intros x. rewrite elem_of_contents_record.
    destruct (buffer_ops s =? BufferSize).
    { destruct (decide (value b = x)) as [<-|]; [done|done]. }
    rewrite elem_of_contents_before.
    rewrite elem_of_contents_before in Hb.
    rewrite kinds_on_app, kinds_on_cons.
    change (kinds_on x []) with (@nil BufferOperation).
    destruct (decide (value b = x)) as [<-|];
      [|by rewrite app_nil_r].
    rewrite last_snoc.
    destruct (kinds_on (value b) (log s)) as [|k ks] eqn:Hks.
    + cbn in *. destruct (operation b); intuition congruence.
    + cbn [app head] in *.
      destruct (last (k :: ks)) as [t|] eqn:Ht;
        [|by apply last_None in Ht].
      destruct k, t, (operation b); intuition congruence.
Qed.
End one_write.

Section writes.
Context (BufferSize : nat) (s : contiguous_set).
Hypothesis HBufferSize : 0 < BufferSize.
Hypothesis Hwf : wf BufferSize s.
Hypothesis Hs : strictly_increasing (items s).

Lemma apply_call_write c b :
  call_entry c = Some b →
  wf BufferSize (apply_call BufferSize s c) ∧
  log (apply_call BufferSize s c) =
    (if buffer_ops s =? BufferSize then [] else log s) ++ [b] ∧
  items (apply_call BufferSize s c) =
    (if buffer_ops s =? BufferSize then items (make_ready BufferSize s)
     else items s).
Proof.
  destruct c as [val|val|]; intros [= <-]; cbn [apply_call].
  - by apply insert_spec.
  - by apply erase_spec.
Qed.

Lemma apply_call_sorted c :
  wf BufferSize (apply_call BufferSize s c)
  ∧ strictly_increasing (items (apply_call BufferSize s c)).
Proof.
  destruct (call_entry c) as [b|] eqn:Hc.
  - destruct (apply_call_write c b Hc) as (Hwf' & Hlog' & Hitems').
    split; [done|].
    by apply (record_strictly_increasing BufferSize s _ b).
  - destruct c; try done. cbn [apply_call begin_ snd].
    split; [by apply wf_make_ready|].
    by apply contents_strictly_increasing.
Qed.

Lemma apply_call_into_empty_log c :
  buffer_ops s = 0 ∨ buffer_ops s = BufferSize →
  contents BufferSize (apply_call BufferSize s c)
    = ref_apply (contents BufferSize s) c.
Proof.
  intros Hempty. destruct (call_entry c) as [b|] eqn:Hc.
  - destruct (apply_call_write c b Hc) as (Hwf' & Hlog' & Hitems').
    rewrite (record_into_empty_log BufferSize s _ b) by done.
    by destruct c; simplify_eq/=.
  - destruct c; try done. cbn [apply_call begin_ snd ref_apply].
    rewrite !contents_make_ready. apply make_ready_again.
Qed.
End writes.

Lemma run_sorted BufferSize calls : ∀ s,
  0 < BufferSize → wf BufferSize s → strictly_increasing (items s) →
  wf BufferSize (run BufferSize calls s)
  ∧ strictly_increasing (items (run BufferSize calls s)).
Proof.
  unfold run. induction calls as [|c calls IH]; intros s HC Hwf Hs; [done|].
  cbn [foldl]. destruct (apply_call_sorted BufferSize s HC Hwf Hs c).
  by apply IH.
Qed.

Lemma run_one_cell calls : ∀ s,
  wf 1 s → strictly_increasing (items s) →
  contents 1 (run 1 calls s) = foldl ref_apply (contents 1 s) calls.
Proof.
  unfold run. induction calls as [|c calls IH]; intros s Hwf Hs; [done|].
  cbn [foldl].
  destruct (apply_call_sorted 1 s (Nat.lt_0_1) Hwf Hs c) as [Hwf' Hs'].
  rewrite IH by done. f_equal.
  apply apply_call_into_empty_log; [lia|done..|].
  destruct Hwf as [_ ?]. lia.
Qed.

Lemma run_read_after_every_write BufferSize calls : ∀ s,
  0 < BufferSize → wf BufferSize s → strictly_increasing (items s) →
  buffer_ops s = 0 →
  contents BufferSize
    (run BufferSize (calls ≫= λ c, [c; CallBegin]) s)
    = foldl ref_apply (items s) calls.
Proof.
  unfold run. induction calls as [|c calls IH]; intros s HC Hwf Hs H0.
  - cbn. rewrite contents_make_ready. unfold make_ready. by rewrite H0.
  - cbn [mbind list_bind app foldl].
    change (foldl (apply_call BufferSize)
              (apply_call BufferSize (apply_call BufferSize s c) CallBegin)
              (calls ≫= λ c, [c; CallBegin]))
      with (run BufferSize (calls ≫= λ c, [c; CallBegin])
              (make_ready BufferSize (apply_call BufferSize s c))).
    destruct (apply_call_sorted BufferSize s HC Hwf Hs c) as [Hwf' Hs'].
    unfold run. rewrite IH.
    + f_equal. rewrite <-contents_make_ready.
      rewrite apply_call_into_empty_log by auto.
      f_equal. rewrite contents_make_ready. unfold make_ready. by rewrite H0.
    + done.
    + by apply wf_make_ready.
    + by apply (contents_strictly_increasing BufferSize).
    + apply make_ready_buffer_ops.
Qed.

(** X11.  Absorbed writes.  Whatever is pending in the log, inserting a
    value that is in the contents and erasing a value that is not in the
    contents leave the contents as they are. *)
Theorem absorbed_writes (BufferSize : nat) (s : contiguous_set) (val : Z) :
  0 < BufferSize →
  wf BufferSize s →
  strictly_increasing (items s) →
  (val ∈ contents BufferSize s →
   contents BufferSize (insert BufferSize val s) = contents BufferSize s)
  ∧ ((val ∉ contents BufferSize s) →
     contents BufferSize (erase BufferSize val s) = contents BufferSize s).
Proof.
  intros HC Hwf Hs. split; intros Hval.
  - destruct (insert_spec BufferSize val s HC Hwf) as (Hwf' & Hlog' & Hitems').
    by apply (record_absorbed BufferSize s _ (mkBufferItem InsertItem val)).
  - destruct (erase_spec BufferSize val s HC Hwf) as (Hwf' & Hlog' & Hitems').
    by apply (record_absorbed BufferSize s _ (mkBufferItem DeleteItem val)).
Qed.

Lemma absorbed_writes_witness :
  0 < 4 ∧ wf 4 batch_example ∧ strictly_increasing (items batch_example)
  ∧ (3%Z ∈ contents 4 batch_example →
     contents 4 (insert 4 3 batch_example) = contents 4 batch_example)
  ∧ ((3%Z ∉ contents 4 batch_example) →
     contents 4 (erase 4 3 batch_example) = contents 4 batch_example).
Proof.
  assert (0 < 4) as H4 by lia.
  assert (wf 4 batch_example) as Hwf by (split; cbn; lia).
  assert (strictly_increasing (items batch_example)) as Hs
    by (repeat constructor; reflexivity).
  split_and!; [exact H4|exact Hwf|exact Hs|..];
    apply (absorbed_writes 4 batch_example 3 H4 Hwf Hs).
Defined.

(** X12.  A write into an empty log takes effect exactly.  When nothing
    is pending, or the log is full so that the write flushes it first,
    [insert(val)] and [erase(val)] change the contents as the reference
    ordered set's insert and erase do. *)
Theorem write_into_empty_log (BufferSize : nat) (s : contiguous_set)
    (val : Z) :
  0 < BufferSize →
  wf BufferSize s →
  strictly_increasing (items s) →
  buffer_ops s = 0 ∨ buffer_ops s = BufferSize →
  contents BufferSize (insert BufferSize val s)
    = ref_insert val (contents BufferSize s)
  ∧ contents BufferSize (erase BufferSize val s)
    = ref_erase val (contents BufferSize s).
Proof.
  intros HC Hwf Hs Hempty. split.
  - by apply (apply_call_into_empty_log BufferSize s HC Hwf Hs (CallInsert val)).
  - by apply (apply_call_into_empty_log BufferSize s HC Hwf Hs (CallErase val)).
Qed.

Lemma write_into_empty_log_witness :
  0 < 4 ∧ wf 4 batch_example ∧ strictly_increasing (items batch_example)
  ∧ (buffer_ops batch_example = 0 ∨ buffer_ops batch_example = 4)
  ∧ contents 4 (insert 4 5 batch_example)
    = ref_insert 5 (contents 4 batch_example)
  ∧ contents 4 (erase 4 5 batch_example)
    = ref_erase 5 (contents 4 batch_example).
Proof.
  assert (0 < 4) as H4 by lia.
  assert (wf 4 batch_example) as Hwf by (split; cbn; lia).
  assert (strictly_increasing (items batch_example)) as Hs
    by (repeat constructor; reflexivity).
  assert (buffer_ops batch_example = 0 ∨ buffer_ops batch_example = 4)
    as Hfull by (right; reflexivity).
  split_and!; [exact H4|exact Hwf|exact Hs|exact Hfull|..];
    apply (write_into_empty_log 4 batch_example 5 H4 Hwf Hs Hfull).
Defined.

(** X13.  With [BufferSize = 1] every write flushes the one before it,
    and the container is a correct set: after any sequence of
    insert/erase/begin calls on a fresh container the contents equal those
    of the reference ordered set. *)
Theorem set_equivalence_one_cell (unset : nat → BufferItem)
    (calls : list call) :
  contents 1 (run 1 calls (new_set 1 unset)) = ref_run calls.
Proof.
  rewrite run_one_cell; [done|apply wf_new_set|constructor].
Qed.

(** X14.  Reads interleaved.  For every [BufferSize > 0], when each
    insert or erase is followed by a read ([begin()]), the contents after
    any sequence of calls on a fresh container equal those of the reference
    ordered set, also when values are both inserted and erased. *)
Theorem set_equivalence_read_after_write (BufferSize : nat)
    (unset : nat → BufferItem) (calls : list call) :
  0 < BufferSize →
  contents BufferSize
    (run BufferSize (calls ≫= λ c, [c; CallBegin])
       (new_set BufferSize unset))
    = ref_run calls.
Proof.
  intros HC.
  rewrite run_read_after_every_write;
    [done|done|apply wf_new_set|constructor|done].
Qed.

Lemma set_equivalence_read_after_write_witness :
  0 < 2
  ∧ contents 2
      (run 2 ([CallErase 1; CallInsert 1; CallInsert 3; CallErase 3]
                ≫= λ c, [c; CallBegin])
         (new_set 2 (λ _, inhabitant)))
    = ref_run [CallErase 1; CallInsert 1; CallInsert 3; CallErase 3].
Proof.
  assert (0 < 2) as H2 by lia.
  split; [exact H2|].
  exact (set_equivalence_read_after_write 2 (λ _, inhabitant)
           [CallErase 1; CallInsert 1; CallInsert 3; CallErase 3] H2).
Defined.

(** ** What is never read, and the reads *)

Section same_view.
Context (BufferSize : nat).
Hypothesis HBufferSize : 0 < BufferSize.

Lemma apply_call_same_view c s s' :
  wf BufferSize s → wf BufferSize s' →
  log s = log s' → items s = items s' →
  wf BufferSize (apply_call BufferSize s c)
  ∧ wf BufferSize (apply_call BufferSize s' c)
  ∧ log (apply_call BufferSize s c) = log (apply_call BufferSize s' c)
  ∧ items (apply_call BufferSize s c) = items (apply_call BufferSize s' c).
Proof.
  intros Hwf Hwf' Hlog Hitems.
  assert (buffer_ops s = buffer_ops s') as Hops
    by (by rewrite <-!(length_log BufferSize), Hlog).
  assert (items (make_ready BufferSize s) = items (make_ready BufferSize s'))
    as Hready by (by rewrite !make_ready_items, Hlog, Hitems).
  destruct c as [val|val|]; cbn [apply_call begin_ snd].
  - destruct (insert_spec BufferSize val s HBufferSize Hwf) as (? & -> & ->).
    destruct (insert_spec BufferSize val s' HBufferSize Hwf') as (? & -> & ->).
    by rewrite Hops, Hlog, Hitems, Hready.
  - destruct (erase_spec BufferSize val s HBufferSize Hwf) as (? & -> & ->).
    destruct (erase_spec BufferSize val s' HBufferSize Hwf') as (? & -> & ->).
    by rewrite Hops, Hlog, Hitems, Hready.
  - rewrite !log_make_ready. split_and!; try done; by apply wf_make_ready.
Qed.

Lemma run_same_view calls : ∀ s s',
  wf BufferSize s → wf BufferSize s' →
  log s = log s' → items s = items s' →
  wf BufferSize (run BufferSize calls s)
  ∧ wf BufferSize (run BufferSize calls s')
  ∧ log (run BufferSize calls s) = log (run BufferSize calls s')
  ∧ items (run BufferSize calls s) = items (run BufferSize calls s').
Proof.
  induction calls as [|c calls IH]; intros s s' Hwf Hwf' Hlog Hitems; [done|].
  cbn. pose proof (apply_call_same_view c s s' Hwf Hwf' Hlog Hitems)
    as (? & ? & ? & ?). by apply IH.
Qed.

Lemma contents_same_view s s' :
  wf BufferSize s → wf BufferSize s' →
  log s = log s' → items s = items s' →
  contents BufferSize s = contents BufferSize s'.
Proof.
  intros Hwf Hwf' Hlog Hitems.
  by rewrite !contents_make_ready, !make_ready_items, Hlog, Hitems.
Qed.
End same_view.

(** X15.  The cells of [op_buffer] at and above [buffer_ops] and the
    [state] flag are never read: two well-formed containers with the same
    pending log and the same store give the same contents, log and
    [lower_bound] result after any sequence of calls. *)
Theorem unread_cells_never_matter (BufferSize : nat) (s s' : contiguous_set)
    (calls : list call) (val : Z) :
  0 < BufferSize →
  wf BufferSize s → wf BufferSize s' →
  log s = log s' → items s = items s' →
  contents BufferSize (run BufferSize calls s)
    = contents BufferSize (run BufferSize calls s')
  ∧ log (run BufferSize calls s) = log (run BufferSize calls s')
  ∧ lower_bound val (run BufferSize calls s)
    = lower_bound val (run BufferSize calls s').
Proof.
  intros HC Hwf Hwf' Hlog Hitems.
  destruct (run_same_view BufferSize HC calls s s' Hwf Hwf' Hlog Hitems)
    as (Hw & Hw' & Hl & Hi).
  pose proof (contents_same_view BufferSize _ _ Hw Hw' Hl Hi) as Hc.
  split_and!; [done|done|].
  unfold lower_bound. by rewrite Hi.
Qed.

Lemma unread_cells_never_matter_witness :
  0 < 4 ∧ wf 4 ready_example ∧ wf 4 stale_example
  ∧ log ready_example = log stale_example
  ∧ items ready_example = items stale_example
  ∧ contents 4 (run 4 [CallInsert 5; CallErase 1] ready_example)
    = contents 4 (run 4 [CallInsert 5; CallErase 1] stale_example)
  ∧ log (run 4 [CallInsert 5; CallErase 1] ready_example)
    = log (run 4 [CallInsert 5; CallErase 1] stale_example)
  ∧ lower_bound 5 (run 4 [CallInsert 5; CallErase 1] ready_example)
    = lower_bound 5 (run 4 [CallInsert 5; CallErase 1] stale_example).
Proof.
  assert (0 < 4) as H4 by lia.
  assert (wf 4 ready_example) as Hwf by (split; cbn; lia).
  assert (wf 4 stale_example) as Hwf' by (split; cbn; lia).
  assert (log ready_example = log stale_example) as Hl by reflexivity.
  assert (items ready_example = items stale_example) as Hi by reflexivity.
  split_and!; [exact H4|exact Hwf|exact Hwf'|exact Hl|exact Hi|..];
    apply (unread_cells_never_matter 4 ready_example stale_example
             [CallInsert 5; CallErase 1] 5 H4 Hwf Hwf' Hl Hi).
Defined.

(** X16.  [clear()] drops the store and the log without reconciling, and
    a cleared container behaves as a freshly constructed one: after any
    sequence of calls the contents are the same. *)
Theorem clear_like_fresh (BufferSize : nat) (s : contiguous_set)
    (unset : nat → BufferItem) (calls : list call) :
  0 < BufferSize →
  wf BufferSize s →
  log (clear s) = [] ∧ items (clear s) = []
  ∧ contents BufferSize (run BufferSize calls (clear s))
    = contents BufferSize (run BufferSize calls (new_set BufferSize unset)).
Proof.
  intros HC [Hlen Hops]. split; [done|]. split; [done|].
  assert (wf BufferSize (clear s)) as Hwf by (split; cbn; [done|lia]).
  pose proof (wf_new_set BufferSize unset) as Hwf'.
  destruct (run_same_view BufferSize HC calls _ _ Hwf Hwf') as (? & ? & ? & ?);
    [done..|].
  by apply contents_same_view.
Qed.

Lemma clear_like_fresh_witness :
  0 < 4 ∧ wf 4 batch_example
  ∧ log (clear batch_example) = [] ∧ items (clear batch_example) = []
  ∧ contents 4 (run 4 [CallInsert 5; CallErase 1] (clear batch_example))
    = contents 4 (run 4 [CallInsert 5; CallErase 1]
                    (new_set 4 (λ _, inhabitant))).
Proof.
  assert (0 < 4) as H4 by lia.
  assert (wf 4 batch_example) as Hwf by (split; cbn; lia).
  split; [exact H4|]. split; [exact Hwf|].
  exact (clear_like_fresh 4 batch_example (λ _, inhabitant)
           [CallInsert 5; CallErase 1] H4 Hwf).
Defined.

Lemma make_ready_idempotent BufferSize s :
  make_ready BufferSize (make_ready BufferSize s) = make_ready BufferSize s.
Proof.
  pose proof (make_ready_buffer_ops BufferSize s) as Hops.
  pose proof (make_ready_state BufferSize s) as Hst.
  destruct (make_ready BufferSize s) as [buf n st it]. cbn in *. subst.
  done.
Qed.

(** X17.  The reads agree with one another.  [begin()] reconciles; it
    leaves an empty log, the flag [Ready] and the cells of [op_buffer] as
    they were; [end()], [size()] and [empty()] called after it change
    nothing more, [end() - begin()] and [size()] are the number of
    contents, and [empty()] tells whether that number is 0. *)
Theorem reads_agree (BufferSize : nat) (s : contiguous_set) :
  let '(b, s1) := begin_ BufferSize s in
  let '(e, s2) := end_ BufferSize s1 in
  let '(n, s3) := size BufferSize s2 in
  let '(z, s4) := empty BufferSize s3 in
  s2 = s1 ∧ s3 = s1 ∧ s4 = s1
  ∧ items s1 = contents BufferSize s ∧ buffer_ops s1 = 0 ∧ state s1 = Ready
  ∧ op_buffer s1 = op_buffer s
  ∧ b = 0 ∧ e = length (contents BufferSize s) ∧ n = e
  ∧ z = bool_decide (n = 0).
Proof.
  unfold begin_, end_, size, empty. rewrite !make_ready_idempotent.
  split_and!; try done.
  - apply make_ready_buffer_ops.
  - apply make_ready_state.
  - apply make_ready_op_buffer.
  - apply bool_decide_ext. by rewrite length_zero_iff_nil.
Qed.
